(** * SpotifyPartyQueue: the store, the selection rule and the reconciliation tick

    A shallow embedding of [backend/db_api.py], [backend/business_logic.py],
    the adapter entry points of [backend/spotify_api.py] that the business
    logic calls, and the helper and endpoints of [backend/api.py], followed
    by the properties of the ranked queue, the votes, the injection ledger,
    the reconciliation tick and the endpoints.

    Conventions of the embedding.
    - The SQLite connection [_conn] is the explicit value [DB]; every
      function of [db_api.py] takes the store and returns the new store next
      to its Python result.  Every statement commits on its own, as in the
      source.
    - A table is the list of its rows.  What the schema enforces (primary
      keys, the UNIQUE column, the foreign keys, AUTOINCREMENT) is stated
      once as the predicate [wf] and shown to be kept by every operation.
    - A [datetime] is an aware UTC instant counted in microseconds; the
      TEXT column [last_played] has a resolution of one second.
    - A Python [int] is a [Z].  An INTEGER column holds a signed 64-bit
      integer: binding a Python [int] outside that range raises
      [OverflowError], and [SUM] raises [OperationalError] (integer
      overflow) as soon as its running sum leaves the range.
    - An exception is the constructor [Raise] of [result].
    - The external device is an explicit environment: what the adapter
      answers and what the clock shows. *)

From Stdlib Require Import ZArith List String Bool Lia Permutation Sorted.
Import ListNotations.
Open Scope Z_scope.

(** ** Python values *)

(** Modelled from the spec: the class [Song] of [song.py], which is not part
    of the sources at hand; every use [Song(id, name, artist)] and the
    attributes [song_id], [name], [artist] read in the code fix its
    fields.  An instance is truthy. *)
Record Song : Type := mkSong
  { song_id : string;
    name : string;
    artist : string }.

(** The outcome of a call that may raise. *)
Inductive result (A : Type) : Type :=
| Return (a : A)
| Raise (msg : string).
Arguments Return {A} a.
Arguments Raise {A} msg.

(** [datetime]: microseconds since the epoch, UTC. [timedelta]: microseconds. *)
Definition datetime : Type := Z.
Definition timedelta : Type := Z.
Definition microseconds_per_second : Z := 1000000.
Definition timedelta_minutes (m : Z) : timedelta :=
  m * 60 * microseconds_per_second.

(** The text [YYYY-MM-DDTHH:MM:SSZ] kept in the column [last_played],
    identified with the whole second it denotes. *)
Record iso_text : Type := mkIso { iso_seconds : Z }.

(** ** Generic pieces of the SQL queries *)

Section OrderBy.
Context {A : Type} (leb : A -> A -> bool).

Fixpoint insert_row (x : A) (l : list A) : list A :=
  match l with
  | [] => [x]
  | y :: t => if leb x y then x :: y :: t else y :: insert_row x t
  end.

(** [ORDER BY]: the rows sorted along [leb]. *)
Fixpoint order_by (l : list A) : list A :=
  match l with
  | [] => []
  | x :: t => insert_row x (order_by t)
  end.
End OrderBy.

(** The sum of a list of integers, as a number. *)
Definition sum_z (l : list Z) : Z := fold_right Z.add 0 l.

(** The range of an INTEGER column and of SQLite's integer arithmetic. *)
Definition int64_min : Z := -9223372036854775808.
Definition int64_max : Z := 9223372036854775807.
Definition int64_ok (v : Z) : bool := (int64_min <=? v) && (v <=? int64_max).

(** The running sum of [SUM] over integers, the rows taken in the order
    the table holds them: [None] is the error "integer overflow", raised
    once the running sum leaves the range, whatever follows. *)
Fixpoint sum_int64_from (acc : Z) (l : list Z) : option Z :=
  match l with
  | [] => Some acc
  | v :: t =>
      if int64_ok (acc + v) then sum_int64_from (acc + v) t else None
  end.

Definition sum_int64 (l : list Z) : option Z := sum_int64_from 0 l.

(** [SUM(col)] over the values of a group that are not NULL: [None] is
    the error, [Some None] is NULL, the sum of no value. *)
Definition sql_sum (l : list Z) : option (option Z) :=
  match l with
  | [] => Some None
  | _ :: _ => option_map Some (sum_int64 l)
  end.

(** [COALESCE(v, d)]. *)
Definition coalesce (v : option Z) (d : Z) : Z :=
  match v with
  | Some x => x
  | None => d
  end.

(** The rows of a result set, or nothing when computing one of them
    raised. *)
Fixpoint collect {A : Type} (l : list (option A)) : option (list A) :=
  match l with
  | [] => Some []
  | x :: t =>
      match x, collect t with
      | Some a, Some r => Some (a :: r)
      | _, _ => None
      end
  end.

(** [ORDER BY total DESC, qid ASC] on the pair (total, qid). *)
Definition total_desc_qid_asc (a b : Z * Z) : bool :=
  (fst b <? fst a) || ((fst a =? fst b) && (snd a <=? snd b)).

(** ** db_api.py *)

Module db.

Record SongRow : Type := mkSongRow
  { row_id : string;
    row_name : string;
    row_artist : string;
    row_last_played : option iso_text }.

Record QueueRow : Type := mkQueueRow
  { aq_id : Z;
    aq_song_id : string }.

Record VoteRow : Type := mkVoteRow
  { v_app_queue_id : Z;
    v_client_id : string;
    v_vote : Z }.

Record LedgerRow : Type := mkLedgerRow
  { la_id : Z;
    la_song_id : string }.

(** The four tables, and for the two AUTOINCREMENT tables the largest
    row id ever handed out (SQLite's [sqlite_sequence]). *)
Record DB : Type := mkDB
  { t_song : list SongRow;
    t_app_queue : list QueueRow;
    seq_app_queue : Z;
    t_votes : list VoteRow;
    t_last_added_songs : list LedgerRow;
    seq_last_added_songs : Z }.

(** The store right after [_init_db] on a fresh file. *)
Definition empty : DB := mkDB [] [] 0 [] [] 0.

Definition with_song (st : DB) (t : list SongRow) : DB :=
  mkDB t (t_app_queue st) (seq_app_queue st) (t_votes st)
       (t_last_added_songs st) (seq_last_added_songs st).

Definition with_votes (st : DB) (t : list VoteRow) : DB :=
  mkDB (t_song st) (t_app_queue st) (seq_app_queue st) t
       (t_last_added_songs st) (seq_last_added_songs st).

(** *** Helpers *)

Definition _to_utc_iso (dt : option datetime) : option iso_text :=
  match dt with
  | None => None
  | Some d => Some (mkIso (d / microseconds_per_second))
  end.

Definition _from_utc_iso (s : option iso_text) : option datetime :=
  match s with
  | None => None
  | Some t => Some (iso_seconds t * microseconds_per_second)
  end.

Definition song_row (st : DB) (id : string) : option SongRow :=
  find (fun r => String.eqb (row_id r) id) (t_song st).

Definition queue_row (st : DB) (id : string) : option QueueRow :=
  find (fun r => String.eqb (aq_song_id r) id) (t_app_queue st).

Definition _get_app_queue_id (st : DB) (id : string) : option Z :=
  option_map aq_id (queue_row st id).

(** The rows of [votes] LEFT JOINed to one queue entry. *)
Definition votes_of (st : DB) (qid : Z) : list VoteRow :=
  filter (fun v => v_app_queue_id v =? qid) (t_votes st).

(** [COALESCE(SUM(v.vote), 0)] of the group of one queue entry; [None]
    when the sum overflows. *)
Definition vote_sum (st : DB) (qid : Z) : option Z :=
  option_map (fun total => coalesce total 0)
             (sql_sum (map v_vote (votes_of st qid))).

(** *** API *)

Definition add_song (st : DB) (song : Song) : DB * option datetime :=
  match song_row st (song_id song) with
  | Some row => (st, _from_utc_iso (row_last_played row))
  | None =>
      (with_song st
         (t_song st ++ [mkSongRow (song_id song) (name song) (artist song) None]),
       None)
  end.

Definition get_song (st : DB) (id : string) : option Song :=
  match song_row st id with
  | None => None
  | Some row => Some (mkSong (row_id row) (row_name row) (row_artist row))
  end.

Definition set_last_played (st : DB) (song : Song) (last_played : datetime)
  : DB * option datetime :=
  let iso := _to_utc_iso (Some last_played) in
  (with_song st
     (map (fun r =>
             if String.eqb (row_id r) (song_id song)
             then mkSongRow (row_id r) (row_name r) (row_artist r) iso
             else r)
          (t_song st)),
   _from_utc_iso iso).

(** The INSERT raises [IntegrityError] when the UNIQUE column already
    holds the identifier or when no row of [song] has it. *)
Definition add_song_to_app_queue (st : DB) (song : Song) : DB * bool :=
  if existsb (fun r => String.eqb (aq_song_id r) (song_id song)) (t_app_queue st)
     || negb (existsb (fun r => String.eqb (row_id r) (song_id song)) (t_song st))
  then (st, false)
  else
    let id := seq_app_queue st + 1 in
    (mkDB (t_song st)
          (t_app_queue st ++ [mkQueueRow id (song_id song)])
          id
          (t_votes st) (t_last_added_songs st) (seq_last_added_songs st),
     true).

(** One row of the result of the query of [get_app_queue]. *)
Record QueueView : Type := mkQueueView
  { qv_song : Song;
    qv_vote_sum : Z;
    qv_client_vote : option Z;
    qv_qid : Z }.

(** [SUM(CASE WHEN v.client_id = ? THEN v.vote END)]: NULL when no vote
    of the group is the client's, also when the parameter is NULL; [None]
    when the sum overflows. *)
Definition client_vote_sum (st : DB) (qid : Z) (client_id : option string)
  : option (option Z) :=
  match client_id with
  | None => Some None
  | Some c =>
      sql_sum (map v_vote
                   (filter (fun v => String.eqb (v_client_id v) c)
                           (votes_of st qid)))
  end.

(** The query raises when a sum of one of its groups overflows. *)
Definition get_app_queue (st : DB) (client_id : option string)
  : result (list (Song * Z * Z)) :=
  let rows :=
    flat_map
      (fun aq =>
         match song_row st (aq_song_id aq) with
         | None => []
         | Some s =>
             [match vote_sum st (aq_id aq),
                    client_vote_sum st (aq_id aq) client_id with
              | Some vote_sum, Some client_vote =>
                  Some (mkQueueView (mkSong (row_id s) (row_name s) (row_artist s))
                                    vote_sum client_vote (aq_id aq))
              | _, _ => None
              end]
         end)
      (t_app_queue st) in
  match collect rows with
  | None => Raise "integer overflow"
  | Some rows =>
      let rows :=
        order_by (fun a b => total_desc_qid_asc (qv_vote_sum a, qv_qid a)
                                                (qv_vote_sum b, qv_qid b))
                 rows in
      Return (map (fun r =>
                     (qv_song r, qv_vote_sum r,
                      match qv_client_vote r with Some c => c | None => 0 end))
                  rows)
  end.

Definition check_song_in_app_queue (st : DB) (song : Song) : bool :=
  existsb (fun r => String.eqb (aq_song_id r) (song_id song)) (t_app_queue st).

(** [INSERT ... ON CONFLICT(app_queue_id, client_id) DO UPDATE SET vote]. *)
Fixpoint upsert_vote (qid : Z) (client_id : string) (vote : Z)
         (l : list VoteRow) : list VoteRow :=
  match l with
  | [] => [mkVoteRow qid client_id vote]
  | r :: t =>
      if (v_app_queue_id r =? qid) && String.eqb (v_client_id r) client_id
      then mkVoteRow qid client_id vote :: t
      else r :: upsert_vote qid client_id vote t
  end.

(** Binding [vote] to the INTEGER parameter raises [OverflowError] outside
    the range; the statement then never runs. *)
Definition vote_song (st : DB) (song : Song) (client_id : string) (vote : Z)
  : DB * result bool :=
  match _get_app_queue_id st (song_id song) with
  | None => (st, Return false)
  | Some qid =>
      if int64_ok vote
      then (with_votes st (upsert_vote qid client_id vote (t_votes st)), Return true)
      else (st, Raise "Python int too large to convert to SQLite INTEGER")
  end.

(** The second query raises when the sum of one of its groups overflows. *)
Definition get_most_voted_song (st : DB) : result (option string) :=
  if (Z.of_nat (List.length (t_votes st)) =? 0) then Return None
  else
    let rows :=
      map (fun aq =>
             option_map (fun total => (aq_song_id aq, total, aq_id aq))
                        (vote_sum st (aq_id aq)))
          (t_app_queue st) in
    match collect rows with
    | None => Raise "integer overflow"
    | Some rows =>
        match order_by (fun a b => total_desc_qid_asc (snd (fst a), snd a)
                                                      (snd (fst b), snd b))
                       rows with
        | [] => Return None
        | row :: _ => Return (Some (fst (fst row)))
        end
    end.

Definition clear_votes (st : DB) (song : Song) : DB * bool :=
  match _get_app_queue_id st (song_id song) with
  | None => (st, true)
  | Some qid =>
      (with_votes st (filter (fun v => negb (v_app_queue_id v =? qid)) (t_votes st)),
       true)
  end.

Definition get_oldest_song (st : DB) : option Song :=
  let rows :=
    flat_map
      (fun aq =>
         match song_row st (aq_song_id aq) with
         | None => []
         | Some s => [(s, aq_id aq)]
         end)
      (t_app_queue st) in
  match order_by (fun a b => snd a <=? snd b) rows with
  | [] => None
  | (s, _) :: _ => Some (mkSong (row_id s) (row_name s) (row_artist s))
  end.

(** The DELETE cascades to the votes of the deleted entries
    ([PRAGMA foreign_keys = ON], [ON DELETE CASCADE]). *)
Definition remove_song_from_app_queue (st : DB) (song : Song)
  : DB * option Song :=
  let hit := fun r => String.eqb (aq_song_id r) (song_id song) in
  let deleted := filter hit (t_app_queue st) in
  (mkDB (t_song st)
        (filter (fun r => negb (hit r)) (t_app_queue st))
        (seq_app_queue st)
        (filter (fun v => negb (existsb (fun r => aq_id r =? v_app_queue_id v) deleted))
                (t_votes st))
        (t_last_added_songs st) (seq_last_added_songs st),
   if 0 <? Z.of_nat (List.length deleted) then Some song else None).

Definition get_last_added_song_ids (st : DB) (num_songs : Z) : list string :=
  if num_songs <=? 0 then []
  else
    map la_song_id
        (firstn (Z.to_nat num_songs)
                (order_by (fun a b => la_id b <=? la_id a) (t_last_added_songs st))).

(** The INSERT fails on the foreign key when [song] has no such row. *)
Definition add_last_added_song_id (st : DB) (id : string) : DB * bool :=
  if existsb (fun r => String.eqb (row_id r) id) (t_song st)
  then
    let n := seq_last_added_songs st + 1 in
    (mkDB (t_song st) (t_app_queue st) (seq_app_queue st) (t_votes st)
          (t_last_added_songs st ++ [mkLedgerRow n id]) n,
     true)
  else (st, false).

End db.

(** ** spotify_api.py: the two calls the business logic makes *)

Module sp.

(** A track object of the Web API as the code reads it with [.get]:
    an absent field and an empty one are both falsy and are both the
    empty string here; [item_artists] lists the [name] of each artist. *)
Record Item : Type := mkItem
  { item_type : string;
    item_id : string;
    item_name : string;
    item_artists : list string }.

(** A parsed body: the empty dict (HTTP 204, empty or non-JSON body) or
    an object. *)
Inductive Payload : Type :=
| EmptyDict
| Dict (it : Item).

(** What one [urlopen] does. *)
Inductive Response : Type :=
| Ok (p : Payload)
| HTTPError (status : Z) (body : string)
| OtherError.

(** Everything the outside world decides during one
    [_authorized_request]: whether the token manager has a token, the
    answer to the request, whether a token refresh succeeds, and the
    answer to the one retry. *)
Record Exchange : Type := mkExchange
  { has_token : bool;
    first : Response;
    refresh_ok : bool;
    second : Response }.

Definition _authorized_request (ex : Exchange) : option Payload :=
  if negb (has_token ex) then None
  else
    match first ex with
    | Ok p => Some p
    | HTTPError status body =>
        if status =? 401 then
          if refresh_ok ex then
            match second ex with
            | Ok p => Some p
            | _ => None
            end
          else None
        else if status =? 429 then
          match second ex with
          | Ok p => Some p
          | _ => None
          end
        else None
    | OtherError => None
    end.

Definition truthy (s : string) : bool := negb (String.eqb s "").

Definition _item_to_song (item : Payload) : option Song :=
  match item with
  | EmptyDict => None
  | Dict it =>
      if negb (String.eqb (item_type it) "track") then None
      else
        let track_id := item_id it in
        let name := item_name it in
        let artist_names := String.concat ", " (filter truthy (item_artists it)) in
        if negb (truthy track_id) || negb (truthy name) || negb (truthy artist_names)
        then None
        else Some (mkSong track_id name artist_names)
  end.

Definition add_song_to_queue (ex : Exchange) (song : Song) : bool :=
  if negb (truthy (song_id song)) then false
  else
    match _authorized_request ex with
    | Some _ => true
    | None => false
    end.

Definition search_song (ex : Exchange) (song_id : string) : option Song :=
  if negb (truthy song_id) then None
  else
    match _authorized_request ex with
    | None | Some EmptyDict => None
    | Some (Dict it) =>
        _item_to_song
          (Dict (mkItem "track" (item_id it) (item_name it) (item_artists it)))
    end.

(** The body of GET /me/player/queue once parsed: the empty dict, or an
    object whose field [currently_playing] is an item ([EmptyDict] where it
    is null or absent) and whose field [queue] lists items. *)
Inductive QueuePayload : Type :=
| QueueEmpty
| QueueDict (currently_playing : Payload) (queue : list Payload).

(** [payload] is what [_authorized_request] returned for the GET. *)
Definition get_queue (payload : option QueuePayload) : list Song :=
  match payload with
  | None => []
  | Some QueueEmpty => []
  | Some (QueueDict currently_playing queue) =>
      let out :=
        match _item_to_song currently_playing with
        | Some curr => [curr]
        | None => []
        end in
      out ++ flat_map (fun q_item =>
                         match _item_to_song q_item with
                         | Some s => [s]
                         | None => []
                         end)
                      queue
  end.

End sp.

(** ** business_logic.py *)

Module bl.

Definition get_queue (st : db.DB) (client_id : option string)
  : result (list (Song * Z * Z)) :=
  db.get_app_queue st client_id.

(** [ex] is the exchange behind [sp.search_song], [now_utc] what
    [datetime.now(timezone.utc)] shows.  The [print] is left out. *)
Definition add_song_to_app_queue (ex : sp.Exchange) (now_utc : datetime)
           (st : db.DB) (song_id : string) : db.DB * result bool :=
  match sp.search_song ex song_id with
  | None => (st, Raise "Track not found on Spotify.")
  | Some song =>
      let (st, last_played) := db.add_song st song in
      if db.check_song_in_app_queue st song then (st, Return false)
      else
        let too_recent :=
          match last_played with
          | Some lp => (now_utc - lp) <? timedelta_minutes 30
          | None => false
          end in
        if too_recent then (st, Return false)
        else
          let (st, ok) := db.add_song_to_app_queue st song in
          (st, Return ok)
  end.

Definition vote_song (st : db.DB) (song : Song) (client_id : string) (vote : Z)
  : db.DB * result bool :=
  db.vote_song st song client_id vote.

Definition _pick_next_song (st : db.DB) : result (option Song) :=
  match db.get_most_voted_song st with
  | Raise e => Raise e
  | Return most_voted =>
      let by_votes :=
        match most_voted with
        | Some most_voted_song_id =>
            if sp.truthy most_voted_song_id
            then db.get_song st most_voted_song_id
            else None
        | None => None
        end in
      Return match by_votes with
             | Some candidate => Some candidate
             | None => db.get_oldest_song st
             end
  end.

(** What the outside decides during one tick: the list [sp.get_queue]
    returns, the exchange behind [sp.add_song_to_queue] for the song
    pushed, and the clock. *)
Record Env : Type := mkEnv
  { sp_queue : list Song;
    sp_push : Song -> sp.Exchange;
    clock : datetime }.

(** A tick yields the store, the value returned or the exception raised,
    and the argument of the call of [sp.add_song_to_queue] when the tick
    made one. *)
Record Outcome : Type := mkOutcome
  { out_db : db.DB;
    out_result : result bool;
    out_push : option Song }.

(** The test that guards selection and injection. *)
Definition next_slot_open (last_added_song_ids : list string)
           (queue : list Song) : bool :=
  (Z.of_nat (List.length last_added_song_ids) <=? 1)
  || (Z.of_nat
        (List.length
           (filter (fun song =>
                      existsb (String.eqb (song_id song)) last_added_song_ids)
                   queue)) <=? 1).

(** The bookkeeping after a push that succeeded; no step raises here, so
    each [try] runs through. *)
Definition after_push (now_utc : datetime) (st : db.DB) (next_song : Song)
  : db.DB :=
  let st := fst (db.add_last_added_song_id st (song_id next_song)) in
  let st := fst (db.remove_song_from_app_queue st next_song) in
  let st := fst (db.clear_votes st next_song) in
  fst (db.set_last_played st next_song now_utc).

(** [sp.get_queue] always returns a list, so the [isinstance] guard never
    fires and is left out.  Nothing catches what [_pick_next_song] raises. *)
Definition check_sp_queue (env : Env) (st : db.DB) : Outcome :=
  let queue := sp_queue env in
  let last_added_song_ids := db.get_last_added_song_ids st 2 in
  if next_slot_open last_added_song_ids queue then
    match _pick_next_song st with
    | Raise e => mkOutcome st (Raise e) None
    | Return None => mkOutcome st (Return false) None
    | Return (Some next_song) =>
        let added := sp.add_song_to_queue (sp_push env next_song) next_song in
        if negb added then mkOutcome st (Return false) (Some next_song)
        else mkOutcome (after_push (clock env) st next_song) (Return true)
                       (Some next_song)
    end
  else mkOutcome st (Return false) None.

End bl.

(** ** api.py: the helper and the three endpoints *)

Module api.

(** What an endpoint answers: the value of its response model, the
    [HTTPException] it raises, or another exception that it does not catch. *)
Inductive response (A : Type) : Type :=
| Ok (a : A)
| HTTPException (status_code : Z) (detail : string)
| Uncaught (e : string).
Arguments Ok {A} a.
Arguments HTTPException {A} status_code detail.
Arguments Uncaught {A} e.

(** *** [_SPOTIFY_TRACK_ID_RE]

    A character of a [string] is read as the code point of that number,
    below 256; among those, [re.IGNORECASE] pairs the letters A to Z with
    a to z and nothing else. *)

Definition is_upper (c : Ascii.ascii) : bool :=
  let n := Ascii.N_of_ascii c in ((65 <=? n) && (n <=? 90))%N.

Definition is_lower (c : Ascii.ascii) : bool :=
  let n := Ascii.N_of_ascii c in ((97 <=? n) && (n <=? 122))%N.

Definition is_digit (c : Ascii.ascii) : bool :=
  let n := Ascii.N_of_ascii c in ((48 <=? n) && (n <=? 57))%N.

Definition lower (c : Ascii.ascii) : Ascii.ascii :=
  if is_upper c then Ascii.ascii_of_N (Ascii.N_of_ascii c + 32) else c.

(** The class [[A-Za-z0-9]]. *)
Definition alnum (c : Ascii.ascii) : bool :=
  is_upper c || is_lower c || is_digit c.

(** The literal [lit] at the start of [s], letters compared without case:
    what follows it. *)
Fixpoint match_literal (lit s : string) : option string :=
  match lit, s with
  | EmptyString, _ => Some s
  | String a lit', String b s' =>
      if Ascii.eqb (lower a) (lower b) then match_literal lit' s' else None
  | String _ _, EmptyString => None
  end.

(** The longest run of the class at the start of [s]. *)
Fixpoint take_alnum (s : string) : string :=
  match s with
  | String c s' => if alnum c then String c (take_alnum s') else EmptyString
  | EmptyString => EmptyString
  end.

(** One alternative at the start of [s]: the literal, then the group
    [[A-Za-z0-9]+]. *)
Definition match_alternative (lit s : string) : option string :=
  match match_literal lit s with
  | None => None
  | Some rest =>
      let id := take_alnum rest in
      if String.eqb id EmptyString then None else Some id
  end.

(** The pattern at the start of [s]: the group that matched. *)
Definition match_here (s : string) : option string :=
  match match_alternative "spotify:track:" s with
  | Some id1 => Some id1
  | None => match_alternative "open.spotify.com/track/" s
  end.

(** [_SPOTIFY_TRACK_ID_RE.search]: the leftmost match. *)
Fixpoint search (s : string) : option string :=
  match match_here s with
  | Some id => Some id
  | None =>
      match s with
      | EmptyString => None
      | String _ s' => search s'
      end
  end.

Definition extract_track_id (link_or_uri : string) : option string :=
  if negb (sp.truthy link_or_uri) then None
  else search link_or_uri.

(** *** Endpoints *)

Record SongOut : Type := mkSongOut
  { id : string;
    so_name : string;
    so_artist : string;
    vote_sum : Z;
    client_vote : Z }.

Definition from_item (item : Song * Z * Z) : SongOut :=
  let '(s, vote_sum, client_vote) := item in
  mkSongOut (song_id s) (name s) (artist s) vote_sum client_vote.

(** GET /queue. *)
Definition get_queue (st : db.DB) (x_client_id : option string)
  : response (list SongOut) :=
  match bl.get_queue st x_client_id with
  | Return items => Ok (map from_item items)
  | Raise e => Uncaught e
  end.

(** POST /queue. *)
Definition add_song_to_app_queue (ex : sp.Exchange) (now_utc : datetime)
           (st : db.DB) (song_link : string) : db.DB * response bool :=
  match extract_track_id song_link with
  | None => (st, HTTPException 400 "Invalid Spotify track link/URI.")
  | Some track_id =>
      if negb (sp.truthy track_id)
      then (st, HTTPException 400 "Invalid Spotify track link/URI.")
      else
        match bl.add_song_to_app_queue ex now_utc st track_id with
        | (st, Return ok) => (st, Ok ok)
        | (st, Raise e) => (st, HTTPException 400 e)
        end
  end.

(** POST /vote. *)
Definition vote_song (ex : sp.Exchange) (st : db.DB) (song_id : string)
           (vote : Z) (x_client_id : option string) : db.DB * response bool :=
  match x_client_id with
  | None => (st, HTTPException 400 "Missing 'X-Client-Id' header.")
  | Some client_id =>
      if negb (sp.truthy client_id)
      then (st, HTTPException 400 "Missing 'X-Client-Id' header.")
      else
        match db.get_song st song_id with
        | Some song =>
            match bl.vote_song st song client_id vote with
            | (st, Return ok) => (st, Ok ok)
            | (st, Raise e) => (st, Uncaught e)
            end
        | None =>
            match sp.search_song ex song_id with
            | None => (st, HTTPException 404 "Song not found on Spotify.")
            | Some sp_song =>
                match bl.vote_song st sp_song client_id vote with
                | (st, Return ok) => (st, Ok ok)
                | (st, Raise e) => (st, Uncaught e)
                end
            end
        end
  end.

End api.

(** ** What the schema enforces *)

(** [wf st]: the constraints SQLite keeps on the four tables, and the one
    thing the adapter guarantees about every identifier that reaches the
    store ([sp._item_to_song] refuses an empty [track_id]). *)
Record wf (st : db.DB) : Prop := mk_wf
  { (* song.id TEXT PRIMARY KEY *)
    wf_song_pk : NoDup (map db.row_id (db.t_song st));
    wf_song_id : Forall (fun r => db.row_id r <> EmptyString) (db.t_song st);
    (* app_queue.id INTEGER PRIMARY KEY AUTOINCREMENT *)
    wf_aq_pk : NoDup (map db.aq_id (db.t_app_queue st));
    wf_aq_seq : Forall (fun e => db.aq_id e <= db.seq_app_queue st) (db.t_app_queue st);
    (* app_queue.song_id UNIQUE, REFERENCES song(id) *)
    wf_aq_unique : NoDup (map db.aq_song_id (db.t_app_queue st));
    wf_aq_fk : Forall (fun e => In (db.aq_song_id e) (map db.row_id (db.t_song st)))
                      (db.t_app_queue st);
    (* votes: PRIMARY KEY (app_queue_id, client_id), REFERENCES app_queue(id) *)
    wf_votes_pk : NoDup (map (fun v => (db.v_app_queue_id v, db.v_client_id v))
                             (db.t_votes st));
    wf_votes_fk : Forall (fun v => In (db.v_app_queue_id v)
                                      (map db.aq_id (db.t_app_queue st)))
                         (db.t_votes st);
    (* votes.vote INTEGER *)
    wf_votes_int64 : Forall (fun v => int64_ok (db.v_vote v) = true) (db.t_votes st);
    (* last_added_songs.id AUTOINCREMENT, song_id REFERENCES song(id) *)
    wf_la_pk : NoDup (map db.la_id (db.t_last_added_songs st));
    wf_la_seq : Forall (fun r => db.la_id r <= db.seq_last_added_songs st)
                       (db.t_last_added_songs st);
    wf_la_fk : Forall (fun r => In (db.la_song_id r) (map db.row_id (db.t_song st)))
                      (db.t_last_added_songs st) }.

(** ** Vocabulary of the properties *)


(** The sum of the votes on an entry, as a number. *)
Definition vote_total (st : db.DB) (qid : Z) : Z :=
  sum_z (map db.v_vote (db.votes_of st qid)).

(** No [SUM] over the votes of a queue entry overflows. *)
Definition sums_fit (st : db.DB) : Prop :=
  forall e, In e (db.t_app_queue st) -> db.vote_sum st (db.aq_id e) <> None.


(** What selection hands to the tick: nothing when it raises. *)
Definition selected (st : db.DB) : option Song :=
  match bl._pick_next_song st with
  | Return candidate => candidate
  | Raise _ => None
  end.


(** The song has an active queue entry. *)
Definition queued (st : db.DB) (id : string) : Prop :=
  In id (map db.aq_song_id (db.t_app_queue st)).

(** The number of queue entries of a song. *)
Definition entries_of (st : db.DB) (id : string) : nat :=
  List.length (filter (fun e => String.eqb (db.aq_song_id e) id) (db.t_app_queue st)).

(** The value of [last_played] a reader of the store gets for a song. *)
Definition last_played_of (st : db.DB) (id : string) : option datetime :=
  match db.song_row st id with
  | Some r => db._from_utc_iso (db.row_last_played r)
  | None => None
  end.



(** The client vote [get_app_queue] shows for an entry: 0 for NULL. *)
Definition client_vote_of (st : db.DB) (qid : Z) (client_id : option string) : Z :=
  match match db.client_vote_sum st qid client_id with
        | Some cv => cv
        | None => None
        end with
  | Some c => c
  | None => 0
  end.

(** The order of the two ranking queries, read on the queue entries. *)
Definition entry_leb (st : db.DB) (a b : db.QueueRow) : bool :=
  total_desc_qid_asc (vote_total st (db.aq_id a), db.aq_id a)
                     (vote_total st (db.aq_id b), db.aq_id b).

(** The row of [song] an entry joins with; a blank row stands in where the
    foreign key would be broken. *)
Definition joined_row (st : db.DB) (e : db.QueueRow) : db.SongRow :=
  match db.song_row st (db.aq_song_id e) with
  | Some r => r
  | None => db.mkSongRow (db.aq_song_id e) EmptyString EmptyString None
  end.

Definition song_of_row (r : db.SongRow) : Song :=
  mkSong (db.row_id r) (db.row_name r) (db.row_artist r).

(** The pending-next rule as the specification words it: [S] is the set of
    identifiers among the first two items of the snapshot, and the slot
    counts as empty when the ledger has fewer than two records or fewer
    than two identifiers of [S] are among the last two injected. *)
Definition spec_next_slot_open (last_added_song_ids : list string)
           (queue : list Song) : bool :=
  let S := nodup string_dec (map song_id (firstn 2 queue)) in
  (Z.of_nat (List.length last_added_song_ids) <? 2)
  || (Z.of_nat
        (List.length
           (filter (fun id => existsb (String.eqb id) last_added_song_ids) S)) <? 2).


(** The tick follows the pending-next rule as the specification words it:
    it pushes what selection returns when the rule finds the slot empty,
    and does nothing otherwise. *)
Definition pending_next_as_specified (env : bl.Env) (st : db.DB) : Prop :=
  let L := db.get_last_added_song_ids st 2 in
  (spec_next_slot_open L (bl.sp_queue env) = true ->
   bl.out_push (bl.check_sp_queue env st) = selected st) /\
  (spec_next_slot_open L (bl.sp_queue env) = false ->
   bl.check_sp_queue env st = bl.mkOutcome st (Return false) None).

(** The instant a [datetime] is stored as: its microseconds dropped. *)
Definition whole_second (d : datetime) : datetime :=
  d / microseconds_per_second * microseconds_per_second.

(** The state of the store [st'] after the song [s], queued in [st], was
    injected with the time stamp [ts]: no queue entry, no vote left on what
    was its entry, the newest ledger record, and [last_played]. *)
Definition injected (st st' : db.DB) (s : Song) (ts : datetime) : Prop :=
  ~ queued st' (song_id s) /\
  (forall e, In e (db.t_app_queue st) -> db.aq_song_id e = song_id s ->
             db.votes_of st' (db.aq_id e) = []) /\
  db.get_last_added_song_ids st' 1 = [song_id s] /\
  last_played_of st' (song_id s) = Some ts.


(** One operation of the business logic on the store: an admission, a
    vote, or a tick, in any environment. *)
Inductive step : db.DB -> db.DB -> Prop :=
| step_admission (ex : sp.Exchange) (now : datetime) (st : db.DB) (id : string) :
    step st (fst (bl.add_song_to_app_queue ex now st id))
| step_vote (st : db.DB) (song : Song) (client_id : string) (vote : Z) :
    step st (fst (bl.vote_song st song client_id vote))
| step_tick (env : bl.Env) (st : db.DB) :
    step st (bl.out_db (bl.check_sp_queue env st)).

(** The stores the business logic can build from the empty one. *)
Inductive reachable : db.DB -> Prop :=
| reachable_empty : reachable db.empty
| reachable_step (st st' : db.DB) : reachable st -> step st st' -> reachable st'.

(** The item is an object of type track. *)
Definition is_track_item (p : sp.Payload) : bool :=
  match p with
  | sp.Dict it => String.eqb (sp.item_type it) "track"
  | sp.EmptyDict => false
  end.

(** Every character of the string is of the class [[A-Za-z0-9]]. *)
Fixpoint all_alnum (s : string) : bool :=
  match s with
  | EmptyString => true
  | String c s' => api.alnum c && all_alnum s'
  end.

(** The string is empty or starts with a character outside the class. *)
Definition ends_run (s : string) : bool :=
  match s with
  | EmptyString => true
  | String c _ => negb (api.alnum c)
  end.

(** ** Stores used as concrete inputs *)

Module Examples.
Open Scope string_scope.

Definition A : Song := mkSong "A" "Song A" "x, y".
Definition B : Song := mkSong "B" "Song B" "x, y".
Definition X : Song := mkSong "X" "Song X" "w".

(** [A] and [B] are queued in this order; [A] has the votes +1 and +5,
    [B] the vote -1; nothing was injected yet. *)
Definition party : db.DB :=
  db.mkDB [db.mkSongRow "A" "Song A" "x, y" None;
           db.mkSongRow "B" "Song B" "x, y" None]
          [db.mkQueueRow 1 "A"; db.mkQueueRow 2 "B"]
          2
          [db.mkVoteRow 1 "c1" 1; db.mkVoteRow 1 "c2" 5; db.mkVoteRow 2 "c1" (-1)]
          []
          0.

(** [party] after two more votes on [B], the largest value the column
    holds and 2: each is stored, their sum does not fit. *)
Definition overflowing : db.DB :=
  db.mkDB [db.mkSongRow "A" "Song A" "x, y" None;
           db.mkSongRow "B" "Song B" "x, y" None]
          [db.mkQueueRow 1 "A"; db.mkQueueRow 2 "B"]
          2
          [db.mkVoteRow 1 "c1" 1; db.mkVoteRow 1 "c2" 5;
           db.mkVoteRow 2 "c1" int64_max; db.mkVoteRow 2 "c2" 2]
          []
          0.

(** [A] then [B] were injected; [C] waits in the queue. *)
Definition after_two : db.DB :=
  db.mkDB [db.mkSongRow "A" "Song A" "x, y" (Some (mkIso 1000));
           db.mkSongRow "B" "Song B" "x, y" (Some (mkIso 1200));
           db.mkSongRow "C" "Song C" "z" None]
          [db.mkQueueRow 3 "C"]
          3
          []
          [db.mkLedgerRow 1 "A"; db.mkLedgerRow 2 "B"]
          2.

(** The adapter answers a push with HTTP 204. *)
Definition accepts : sp.Exchange :=
  sp.mkExchange true (sp.Ok sp.EmptyDict) false sp.OtherError.

(** The adapter answers a push with 404 and the reason NO_ACTIVE_DEVICE. *)
Definition no_active_device : sp.Exchange :=
  sp.mkExchange true
                (sp.HTTPError 404 "{'error': {'status': 404, 'reason': 'NO_ACTIVE_DEVICE'}}")
                false sp.OtherError.

(** The catalogue answers a lookup with 404: no such track. *)
Definition not_found : sp.Exchange :=
  sp.mkExchange true (sp.HTTPError 404 "{'error': {'status': 404}}")
                false sp.OtherError.

(** The catalogue answers a lookup with the track object of [s]. *)
Definition resolves (s : Song) : sp.Exchange :=
  sp.mkExchange true
                (sp.Ok (sp.Dict (sp.mkItem "" (song_id s) (name s) [artist s])))
                false sp.OtherError.
End Examples.

(** * Properties *)

(** ** ORDER BY *)

Section OrderByFacts.
Context {A : Type} (leb : A -> A -> bool).

Lemma insert_row_In (x y : A) (l : list A) :
  In y (insert_row leb x l) <-> y = x \/ In y l.
Proof.
  induction l as [|z t IH]; simpl.
  - intuition.
  - destruct (leb x z); simpl; [intuition | rewrite IH; intuition].
Qed.

Lemma order_by_In (y : A) (l : list A) :
  In y (order_by leb l) <-> In y l.
Proof.
  induction l as [|x t IH]; simpl; [tauto|].
  rewrite insert_row_In, IH. intuition.
Qed.

Lemma order_by_nil (l : list A) : order_by leb l = [] -> l = [].
Proof.
  destruct l as [|x t]; [reflexivity|]. intros H.
  assert (Hin : In x (order_by leb (x :: t))) by (apply order_by_In; now left).
  rewrite H in Hin. destruct Hin.
Qed.

Hypothesis leb_total : forall a b, leb a b = false -> leb b a = true.
Hypothesis leb_trans : forall a b c, leb a b = true -> leb b c = true -> leb a c = true.


End OrderByFacts.

(** Sorting commutes with a projection that keeps the sort key. *)
Lemma order_by_map {A B : Type} (f : A -> B) (lebA : A -> A -> bool)
      (lebB : B -> B -> bool) (l : list A) :
  (forall a b, lebB (f a) (f b) = lebA a b) ->
  order_by lebB (map f l) = map f (order_by lebA l).
Proof.
  intros Hf. induction l as [|x t IH]; [reflexivity|].
  simpl. rewrite IH. generalize (order_by lebA t) as s.
  induction s as [|y s IHs]; [reflexivity|].
  simpl. rewrite Hf. destruct (lebA x y); simpl; [reflexivity|now rewrite IHs].
Qed.

Lemma order_by_ext {A : Type} (leb1 leb2 : A -> A -> bool) (l : list A) :
  (forall a b, leb1 a b = leb2 a b) -> order_by leb1 l = order_by leb2 l.
Proof.
  intros H. rewrite <- (map_id l) at 1.
  rewrite (order_by_map (fun a => a) leb2 leb1) by (intros; apply H).
  apply map_id.
Qed.

(** A row that strictly precedes all others and is appended last comes
    out first. *)
Lemma order_by_app_first {A : Type} (leb : A -> A -> bool) (l : list A) (x : A) :
  (forall y, In y l -> leb y x = false) ->
  order_by leb (l ++ [x]) = x :: order_by leb l.
Proof.
  induction l as [|a t IH]; intros H; [reflexivity|].
  simpl. rewrite IH by (intros; apply H; now right).
  simpl. now rewrite (H a) by now left.
Qed.

Lemma total_desc_qid_asc_total (a b : Z * Z) :
  total_desc_qid_asc a b = false -> total_desc_qid_asc b a = true.
Proof. unfold total_desc_qid_asc. lia. Qed.

Lemma total_desc_qid_asc_trans (a b c : Z * Z) :
  total_desc_qid_asc a b = true -> total_desc_qid_asc b c = true ->
  total_desc_qid_asc a c = true.
Proof. unfold total_desc_qid_asc. lia. Qed.

Lemma total_desc_qid_asc_spec (a b : Z * Z) :
  total_desc_qid_asc a b = true <->
  fst b < fst a \/ (fst b = fst a /\ snd a <= snd b).
Proof. unfold total_desc_qid_asc. lia. Qed.

(** ** Looking rows up by a text key *)

Section Lookup.
Context {A : Type} (key : A -> string).

Lemma existsb_key (l : list A) (k : string) :
  existsb (fun r => String.eqb (key r) k) l = true <-> In k (map key l).
Proof.
  rewrite existsb_exists, in_map_iff. split.
  - intros (r & Hr & E). apply String.eqb_eq in E. now exists r.
  - intros (r & E & Hr). exists r. split; [assumption|]. now apply String.eqb_eq.
Qed.

Lemma existsb_key_false (l : list A) (k : string) :
  existsb (fun r => String.eqb (key r) k) l = false <-> ~ In k (map key l).
Proof.
  rewrite <- existsb_key. destruct (existsb _ l); intuition congruence.
Qed.

Lemma find_key_some (l : list A) (k : string) :
  In k (map key l) ->
  exists r, find (fun r => String.eqb (key r) k) l = Some r /\ key r = k /\ In r l.
Proof.
  intros H. destruct (find (fun r => String.eqb (key r) k) l) as [r|] eqn:E.
  - apply find_some in E. destruct E as [Hin E]. apply String.eqb_eq in E.
    now exists r.
  - exfalso. apply in_map_iff in H. destruct H as (r & Hk & Hr).
    apply (find_none _ _ E) in Hr. simpl in Hr.
    rewrite Hk, String.eqb_refl in Hr. discriminate.
Qed.

Lemma find_key_none (l : list A) (k : string) :
  find (fun r => String.eqb (key r) k) l = None <-> ~ In k (map key l).
Proof.
  split.
  - intros E H. apply find_key_some in H. destruct H as (r & H & _). congruence.
  - intros H. destruct (find _ l) as [r|] eqn:E; [|reflexivity].
    apply find_some in E. destruct E as [Hin E]. apply String.eqb_eq in E.
    exfalso. apply H. apply in_map_iff. now exists r.
Qed.

Lemma find_key_inv (l : list A) (k : string) (r : A) :
  find (fun r => String.eqb (key r) k) l = Some r -> key r = k /\ In r l.
Proof.
  intros E. apply find_some in E. destruct E as [Hin E].
  apply String.eqb_eq in E. now split.
Qed.
End Lookup.

(** ** Votes under the primary key *)


(** Under the primary key, a table that starts with the row of a key has
    no second row of that key. *)
Lemma votes_pk_tail (r : db.VoteRow) (t : list db.VoteRow) (x : db.VoteRow) :
  NoDup (map (fun v => (db.v_app_queue_id v, db.v_client_id v)) (r :: t)) ->
  In x t ->
  (db.v_app_queue_id x =? db.v_app_queue_id r)
  && String.eqb (db.v_client_id x) (db.v_client_id r) = false.
Proof.
  intros Hnd Hx. inversion Hnd as [|? ? Hnin _]; subst.
  destruct (_ && _) eqn:E; [|reflexivity]. exfalso. apply Hnin.
  apply andb_true_iff in E. destruct E as [E1 E2].
  apply Z.eqb_eq in E1. apply String.eqb_eq in E2.
  apply in_map_iff. exists x. split; [|assumption]. now rewrite E1, E2.
Qed.

Lemma filter_cons_true {A : Type} (f : A -> bool) (x : A) (l : list A) :
  f x = true -> filter f (x :: l) = x :: filter f l.
Proof. intros H. simpl. now rewrite H. Qed.

Lemma filter_cons_false {A : Type} (f : A -> bool) (x : A) (l : list A) :
  f x = false -> filter f (x :: l) = filter f l.
Proof. intros H. simpl. now rewrite H. Qed.

Section UpsertSums.
Variables (qid : Z) (c : string).

Let mine (v : db.VoteRow) : bool := String.eqb (db.v_client_id v) c.
Let others (v : db.VoteRow) : bool := negb (String.eqb (db.v_client_id v) c).
Let here (v : db.VoteRow) : bool := db.v_app_queue_id v =? qid.



Fact others_mine (x : db.VoteRow) : others x = negb (mine x).
Proof. reflexivity. Qed.

Lemma filter_here_no_mine (t : list db.VoteRow) :
  (forall x, In x t -> here x && mine x = false) ->
  filter others (filter here t) = filter here t /\
  filter mine (filter here t) = [].
Proof.
  intros H. induction t as [|x t IH]; [now split|].
  destruct IH as [IH1 IH2]; [intros; apply H; now right|].
  pose proof (H x (or_introl eq_refl)) as Hx.
  destruct (here x) eqn:Eh.
  - simpl in Hx.
    rewrite (filter_cons_true here) by assumption.
    rewrite (filter_cons_true others) by (rewrite others_mine; now rewrite Hx).
    rewrite (filter_cons_false mine) by exact Hx.
    now rewrite IH1.
  - rewrite (filter_cons_false here) by assumption. now split.
Qed.

End UpsertSums.

(** Under the primary key of [votes], the rows of one client on one entry
    are the one row there is. *)
Lemma votes_pk_single (qid : Z) (c : string) (v : Z) (l : list db.VoteRow) :
  NoDup (map (fun v => (db.v_app_queue_id v, db.v_client_id v)) l) ->
  In (db.mkVoteRow qid c v) l ->
  filter (fun v => String.eqb (db.v_client_id v) c)
         (filter (fun v => db.v_app_queue_id v =? qid) l)
  = [db.mkVoteRow qid c v].
Proof.
  induction l as [|r t IH]; intros Hnd Hin; [destruct Hin|].
  destruct Hin as [->|Hin].
  - rewrite (filter_cons_true (fun v => db.v_app_queue_id v =? qid))
      by apply Z.eqb_refl.
    rewrite (filter_cons_true (fun v => String.eqb (db.v_client_id v) c))
      by apply String.eqb_refl.
    f_equal. apply (filter_here_no_mine qid c t).
    intros x Hx. exact (votes_pk_tail _ t x Hnd Hx).
  - assert (Hr : (db.v_app_queue_id r =? qid) && String.eqb (db.v_client_id r) c = false).
    { destruct (_ && _) eqn:E; [|reflexivity]. exfalso.
      apply andb_true_iff in E. destruct E as [E1 E2].
      apply Z.eqb_eq in E1. apply String.eqb_eq in E2.
      inversion Hnd as [|? ? Hnin _]; subst. apply Hnin.
      apply in_map_iff. eexists. split; [|exact Hin]. reflexivity. }
    inversion Hnd as [|? ? _ Hnd']; subst.
    destruct (db.v_app_queue_id r =? qid) eqn:E1.
    + rewrite (filter_cons_true (fun v => db.v_app_queue_id v =? qid)) by assumption.
      rewrite (filter_cons_false (fun v => String.eqb (db.v_client_id v) c))
        by exact Hr.
      now apply IH.
    + rewrite (filter_cons_false (fun v => db.v_app_queue_id v =? qid)) by assumption.
      now apply IH.
Qed.

Lemma votes_none_of_client (qid : Z) (c : string) (l : list db.VoteRow) :
  (forall v, ~ In (db.mkVoteRow qid c v) l) ->
  filter (fun v => String.eqb (db.v_client_id v) c)
         (filter (fun v => db.v_app_queue_id v =? qid) l) = [].
Proof.
  intros H. destruct (filter _ (filter _ l)) as [|x r] eqn:F; [reflexivity|].
  exfalso.
  assert (Hx : In x (x :: r)) by now left.
  rewrite <- F in Hx. apply filter_In in Hx. destruct Hx as [Hx E2].
  apply filter_In in Hx. destruct Hx as [Hx E1].
  apply Z.eqb_eq in E1. apply String.eqb_eq in E2.
  apply (H (db.v_vote x)). destruct x as [a b w]. cbn in *. now subst.
Qed.

(** ** Sums in 64 bits *)

Lemma int64_ok_spec (v : Z) :
  int64_ok v = true <-> int64_min <= v <= int64_max.
Proof. unfold int64_ok. lia. Qed.

Lemma sum_int64_from_total (acc : Z) (l : list Z) (t : Z) :
  sum_int64_from acc l = Some t -> t = acc + sum_z l.
Proof.
  revert acc. induction l as [|v r IH]; intros acc; cbn [sum_int64_from sum_z fold_right].
  - intros H. injection H as <-. lia.
  - destruct (int64_ok (acc + v)); [|discriminate].
    intros H. apply IH in H. fold (sum_z r) in *. lia.
Qed.

Lemma vote_sum_unfold (st : db.DB) (qid : Z) :
  db.vote_sum st qid = sum_int64 (map db.v_vote (db.votes_of st qid)).
Proof.
  unfold db.vote_sum, sql_sum.
  destruct (map db.v_vote (db.votes_of st qid)) as [|v r]; [reflexivity|].
  destruct (sum_int64 (v :: r)); reflexivity.
Qed.

(** A sum that does not overflow is the sum. *)
Lemma vote_sum_total (st : db.DB) (qid : Z) (t : Z) :
  db.vote_sum st qid = Some t -> t = vote_total st qid.
Proof.
  rewrite vote_sum_unfold. unfold sum_int64, vote_total. intros H.
  apply sum_int64_from_total in H. lia.
Qed.

Lemma sums_fit_total (st : db.DB) (e : db.QueueRow) :
  sums_fit st -> In e (db.t_app_queue st) ->
  db.vote_sum st (db.aq_id e) = Some (vote_total st (db.aq_id e)).
Proof.
  intros Hfit He. specialize (Hfit e He).
  destruct (db.vote_sum st (db.aq_id e)) as [t|] eqn:E; [|contradiction].
  now rewrite (vote_sum_total st _ t E).
Qed.

Lemma vote_sum_no_votes (st : db.DB) (qid : Z) :
  db.t_votes st = [] -> db.vote_sum st qid = Some 0 /\ vote_total st qid = 0.
Proof. unfold db.vote_sum, vote_total, db.votes_of. now intros ->. Qed.

Lemma no_votes_sums_fit (st : db.DB) : db.t_votes st = [] -> sums_fit st.
Proof.
  intros Hv e _. now rewrite (proj1 (vote_sum_no_votes st (db.aq_id e) Hv)).
Qed.

(** The sum over the votes of one client on one entry: under the primary
    key there is at most one, so it is that vote or NULL, never an error. *)
Lemma client_vote_sum_fits (st : db.DB) (qid : Z) (client_id : option string) :
  wf st ->
  exists cv, db.client_vote_sum st qid client_id = Some cv /\
             match client_id with
             | None => cv = None
             | Some c =>
                 (forall v, In (db.mkVoteRow qid c v) (db.t_votes st) -> cv = Some v) /\
                 ((forall v, ~ In (db.mkVoteRow qid c v) (db.t_votes st)) -> cv = None)
             end.
Proof.
  intros W. destruct client_id as [c|]; [|now exists None].
  unfold db.client_vote_sum, db.votes_of.
  destruct (filter (fun v => String.eqb (db.v_client_id v) c)
                   (filter (fun v => db.v_app_queue_id v =? qid) (db.t_votes st)))
    as [|x r] eqn:F.
  - exists None. split; [reflexivity|]. split; [|reflexivity].
    intros v Hv. rewrite (votes_pk_single qid c v _ (wf_votes_pk st W) Hv) in F.
    discriminate.
  - assert (Hx : In x (x :: r)) by now left.
    rewrite <- F in Hx. apply filter_In in Hx. destruct Hx as [Hx E2].
    apply filter_In in Hx. destruct Hx as [Hx E1].
    apply Z.eqb_eq in E1. apply String.eqb_eq in E2.
    assert (Ex : x = db.mkVoteRow qid c (db.v_vote x))
      by (destruct x; cbn in *; now subst).
    rewrite Ex in Hx.
    rewrite (votes_pk_single qid c (db.v_vote x) _ (wf_votes_pk st W) Hx) in F.
    injection F as Fx <-.
    pose proof (wf_votes_int64 st W) as H64. rewrite Forall_forall in H64.
    specialize (H64 _ Hx). cbn [db.v_vote] in H64.
    exists (Some (db.v_vote x)). split.
    + cbn. unfold sum_int64. cbn. now rewrite H64.
    + split.
      * intros v Hv.
        pose proof (votes_pk_single qid c v _ (wf_votes_pk st W) Hv) as F1.
        pose proof (votes_pk_single qid c (db.v_vote x) _ (wf_votes_pk st W) Hx) as F2.
        rewrite F1 in F2. injection F2 as ->. reflexivity.
      * intros Hnone. now destruct (Hnone _ Hx).
Qed.

Lemma collect_all {A B : Type} (f : A -> option B) (g : A -> B) (l : list A) :
  (forall a, In a l -> f a = Some (g a)) ->
  collect (map f l) = Some (map g l).
Proof.
  induction l as [|x t IH]; intros H; [reflexivity|].
  cbn [map collect]. rewrite (H x) by now left.
  now rewrite IH by (intros; apply H; now right).
Qed.

Lemma collect_none {A : Type} (l : list (option A)) :
  collect l = None <-> In None l.
Proof.
  induction l as [|x t IH]; cbn [collect]; [split; [discriminate|intros []]|].
  destruct x as [a|].
  - destruct (collect t).
    + split; [discriminate|]. intros [H|H]; [discriminate|]. now apply IH in H.
    + split; [|reflexivity]. intros _. right. now apply IH.
  - split; [|reflexivity]. intros _. now left.
Qed.

(** ** The ranking queries under the foreign key *)

Lemma joined_row_found (st : db.DB) (e : db.QueueRow) :
  In (db.aq_song_id e) (map db.row_id (db.t_song st)) ->
  db.song_row st (db.aq_song_id e) = Some (joined_row st e) /\
  db.row_id (joined_row st e) = db.aq_song_id e.
Proof.
  intros H. unfold joined_row, db.song_row.
  destruct (find_key_some db.row_id _ _ H) as (r & -> & Hk & _). now split.
Qed.

Lemma join_song {B : Type} (st : db.DB) (g : db.SongRow -> db.QueueRow -> B)
      (l : list db.QueueRow) :
  Forall (fun e => In (db.aq_song_id e) (map db.row_id (db.t_song st))) l ->
  flat_map (fun aq => match db.song_row st (db.aq_song_id aq) with
                      | None => []
                      | Some s => [g s aq]
                      end) l
  = map (fun aq => g (joined_row st aq) aq) l.
Proof.
  induction 1 as [|e t He _ IH]; [reflexivity|].
  simpl. rewrite IH. destruct (joined_row_found st e He) as [-> _]. reflexivity.
Qed.

Lemma entry_leb_total (st : db.DB) (a b : db.QueueRow) :
  entry_leb st a b = false -> entry_leb st b a = true.
Proof. apply total_desc_qid_asc_total. Qed.

Lemma entry_leb_trans (st : db.DB) (a b c : db.QueueRow) :
  entry_leb st a b = true -> entry_leb st b c = true -> entry_leb st a c = true.
Proof. apply total_desc_qid_asc_trans. Qed.


(** Without any vote the ranking order is the order of the ordinals. *)
Lemma ranked_no_votes (st : db.DB) :
  db.t_votes st = [] ->
  order_by (entry_leb st) (db.t_app_queue st)
  = order_by (fun a b => db.aq_id a <=? db.aq_id b) (db.t_app_queue st).
Proof.
  intros Hv. apply order_by_ext. intros a b. unfold entry_leb.
  rewrite !(proj2 (vote_sum_no_votes st _ Hv)). reflexivity.
Qed.


(** An entry whose sum overflows has votes. *)
Lemma overflow_has_votes (st : db.DB) (qid : Z) :
  db.vote_sum st qid = None -> db.t_votes st <> [].
Proof.
  intros H Hv. rewrite (proj1 (vote_sum_no_votes st qid Hv)) in H. discriminate.
Qed.

(** The three queries, computed on the sorted entries when no sum
    overflows. *)
Lemma get_most_voted_song_eq (st : db.DB) :
  sums_fit st ->
  db.get_most_voted_song st =
  Return match db.t_votes st with
         | [] => None
         | _ :: _ =>
             match order_by (entry_leb st) (db.t_app_queue st) with
             | [] => None
             | e :: _ => Some (db.aq_song_id e)
             end
         end.
Proof.
  intros Hfit. unfold db.get_most_voted_song.
  destruct (db.t_votes st) as [|v vs] eqn:Ev; [reflexivity|].
  assert (Hn : (Z.of_nat (List.length (v :: vs)) =? 0) = false)
    by (apply Z.eqb_neq; cbn [List.length]; lia).
  rewrite Hn.
  rewrite (collect_all _ (fun aq => (db.aq_song_id aq, vote_total st (db.aq_id aq),
                                     db.aq_id aq)))
    by (intros a Ha; now rewrite (sums_fit_total st a Hfit Ha)).
  rewrite (order_by_map
             (fun aq => (db.aq_song_id aq, vote_total st (db.aq_id aq), db.aq_id aq))
             (entry_leb st)) by reflexivity.
  destruct (order_by (entry_leb st) (db.t_app_queue st)); reflexivity.
Qed.

Lemma get_most_voted_song_raise (st : db.DB) (e : db.QueueRow) :
  In e (db.t_app_queue st) -> db.vote_sum st (db.aq_id e) = None ->
  db.get_most_voted_song st = Raise "integer overflow".
Proof.
  intros He Hov. unfold db.get_most_voted_song.
  pose proof (overflow_has_votes st _ Hov) as Hv.
  destruct (db.t_votes st) as [|v vs]; [contradiction|].
  assert (Hn : (Z.of_nat (List.length (v :: vs)) =? 0) = false)
    by (apply Z.eqb_neq; cbn [List.length]; lia).
  rewrite Hn.
  assert (Hc : collect (map (fun aq => option_map
                                         (fun total => (db.aq_song_id aq, total, db.aq_id aq))
                                         (db.vote_sum st (db.aq_id aq)))
                            (db.t_app_queue st)) = None).
  { apply collect_none. apply in_map_iff. exists e. split; [|assumption].
    now rewrite Hov. }
  now rewrite Hc.
Qed.

Lemma get_most_voted_song_returns (st : db.DB) (r : option string) :
  db.get_most_voted_song st = Return r -> sums_fit st.
Proof.
  intros H e He Hov. rewrite (get_most_voted_song_raise st e He Hov) in H.
  discriminate.
Qed.

Lemma get_oldest_song_eq (st : db.DB) :
  wf st ->
  db.get_oldest_song st =
  match order_by (fun a b => db.aq_id a <=? db.aq_id b) (db.t_app_queue st) with
  | [] => None
  | e :: _ => Some (song_of_row (joined_row st e))
  end.
Proof.
  intros W. unfold db.get_oldest_song.
  rewrite (join_song st (fun s aq => (s, db.aq_id aq))) by apply (wf_aq_fk st W).
  rewrite (order_by_map (fun aq => (joined_row st aq, db.aq_id aq))
                        (fun a b => db.aq_id a <=? db.aq_id b)) by reflexivity.
  destruct (order_by _ (db.t_app_queue st)); reflexivity.
Qed.

(** The rows of [get_app_queue] before [collect], under the foreign key. *)
Lemma get_app_queue_rows (st : db.DB) (client_id : option string) :
  wf st ->
  flat_map
    (fun aq =>
       match db.song_row st (db.aq_song_id aq) with
       | None => []
       | Some s =>
           [match db.vote_sum st (db.aq_id aq),
                  db.client_vote_sum st (db.aq_id aq) client_id with
            | Some vote_sum, Some client_vote =>
                Some (db.mkQueueView
                        (mkSong (db.row_id s) (db.row_name s) (db.row_artist s))
                        vote_sum client_vote (db.aq_id aq))
            | _, _ => None
            end]
       end)
    (db.t_app_queue st)
  = map (fun aq =>
           match db.vote_sum st (db.aq_id aq),
                 db.client_vote_sum st (db.aq_id aq) client_id with
           | Some vote_sum, Some client_vote =>
               Some (db.mkQueueView (song_of_row (joined_row st aq))
                                    vote_sum client_vote (db.aq_id aq))
           | _, _ => None
           end)
        (db.t_app_queue st).
Proof.
  intros W.
  apply (join_song st
           (fun s aq =>
              match db.vote_sum st (db.aq_id aq),
                    db.client_vote_sum st (db.aq_id aq) client_id with
              | Some vote_sum, Some client_vote =>
                  Some (db.mkQueueView
                          (mkSong (db.row_id s) (db.row_name s) (db.row_artist s))
                          vote_sum client_vote (db.aq_id aq))
              | _, _ => None
              end)).
  apply (wf_aq_fk st W).
Qed.

Lemma get_app_queue_eq (st : db.DB) (client_id : option string) :
  wf st -> sums_fit st ->
  db.get_app_queue st client_id =
  Return (map (fun e => (song_of_row (joined_row st e),
                         vote_total st (db.aq_id e),
                         client_vote_of st (db.aq_id e) client_id))
              (order_by (entry_leb st) (db.t_app_queue st))).
Proof.
  intros W Hfit. unfold db.get_app_queue.
  rewrite (get_app_queue_rows st client_id W).
  rewrite (collect_all _
             (fun aq => db.mkQueueView
                          (song_of_row (joined_row st aq))
                          (vote_total st (db.aq_id aq))
                          match db.client_vote_sum st (db.aq_id aq) client_id with
                          | Some cv => cv
                          | None => None
                          end
                          (db.aq_id aq))).
  - rewrite (order_by_map
               (fun aq => db.mkQueueView
                            (song_of_row (joined_row st aq))
                            (vote_total st (db.aq_id aq))
                            match db.client_vote_sum st (db.aq_id aq) client_id with
                            | Some cv => cv
                            | None => None
                            end
                            (db.aq_id aq))
               (entry_leb st)) by reflexivity.
    rewrite map_map. reflexivity.
  - intros a Ha. rewrite (sums_fit_total st a Hfit Ha).
    destruct (client_vote_sum_fits st (db.aq_id a) client_id W) as (cv & -> & _).
    reflexivity.
Qed.

Lemma get_app_queue_raise (st : db.DB) (client_id : option string) (e : db.QueueRow) :
  wf st ->
  In e (db.t_app_queue st) -> db.vote_sum st (db.aq_id e) = None ->
  db.get_app_queue st client_id = Raise "integer overflow".
Proof.
  intros W He Hov. unfold db.get_app_queue.
  rewrite (get_app_queue_rows st client_id W).
  match goal with
  | |- match collect ?l with _ => _ end = _ =>
      assert (Hc : collect l = None)
  end.
  { apply collect_none. apply in_map_iff. exists e. split; [|assumption].
    now rewrite Hov. }
  now rewrite Hc.
Qed.

Lemma get_song_entry (st : db.DB) (e : db.QueueRow) :
  wf st -> In e (db.t_app_queue st) ->
  db.get_song st (db.aq_song_id e) = Some (song_of_row (joined_row st e)) /\
  song_id (song_of_row (joined_row st e)) = db.aq_song_id e /\
  sp.truthy (db.aq_song_id e) = true.
Proof.
  intros W He.
  pose proof (wf_aq_fk st W) as Hfk. rewrite Forall_forall in Hfk.
  destruct (joined_row_found st e (Hfk e He)) as [Hrow Hid].
  unfold db.get_song. rewrite Hrow. repeat split; [exact Hid|].
  pose proof (wf_song_id st W) as Hne. rewrite Forall_forall in Hne.
  unfold db.song_row in Hrow. apply find_key_inv in Hrow. destruct Hrow as [_ Hin].
  specialize (Hne _ Hin). rewrite Hid in Hne.
  unfold sp.truthy. destruct (String.eqb_spec (db.aq_song_id e) ""); [contradiction|reflexivity].
Qed.

(** Selection, computed on the sorted entries when no sum overflows. *)
Lemma pick_next_song_eq (st : db.DB) :
  wf st -> sums_fit st ->
  bl._pick_next_song st =
  Return match order_by (entry_leb st) (db.t_app_queue st) with
         | [] => None
         | e :: _ => Some (song_of_row (joined_row st e))
         end.
Proof.
  intros W Hfit. unfold bl._pick_next_song.
  rewrite (get_most_voted_song_eq st Hfit), (get_oldest_song_eq st W).
  destruct (db.t_votes st) as [|v vs] eqn:Ev.
  - now rewrite (ranked_no_votes st Ev).
  - destruct (order_by (entry_leb st) (db.t_app_queue st)) as [|e rest] eqn:E.
    + apply order_by_nil in E. now rewrite E.
    + assert (He : In e (db.t_app_queue st)).
      { apply (order_by_In (entry_leb st)). rewrite E. now left. }
      destruct (get_song_entry st e W He) as (-> & _ & ->). reflexivity.
Qed.

Lemma pick_next_song_raise (st : db.DB) (e : db.QueueRow) :
  In e (db.t_app_queue st) -> db.vote_sum st (db.aq_id e) = None ->
  bl._pick_next_song st = Raise "integer overflow".
Proof.
  intros He Hov. unfold bl._pick_next_song.
  now rewrite (get_most_voted_song_raise st e He Hov).
Qed.

(** When selection returns, no sum overflowed. *)
Lemma pick_next_song_returns (st : db.DB) (c : option Song) :
  bl._pick_next_song st = Return c -> sums_fit st.
Proof.
  intros H e He Hov. rewrite (pick_next_song_raise st e He Hov) in H. discriminate.
Qed.

(** ** The example stores satisfy the schema *)

Ltac solve_wf :=
  constructor; simpl;
  repeat (first [ apply NoDup_nil | apply NoDup_cons | apply Forall_nil
                | apply Forall_cons ]);
  simpl; try lia; try discriminate; try reflexivity;
  try (intuition (try discriminate; try congruence; try lia)).

Lemma wf_empty : wf db.empty.
Proof. solve_wf. Qed.

Lemma wf_party : wf Examples.party.
Proof. solve_wf. Qed.

Lemma wf_after_two : wf Examples.after_two.
Proof. solve_wf. Qed.


Lemma sums_fit_party : sums_fit Examples.party.
Proof. intros e [<-|[<-|[]]]; vm_compute; discriminate. Qed.

Lemma sums_fit_after_two : sums_fit Examples.after_two.
Proof. now apply no_votes_sums_fit. Qed.

(** ** Selection *)



Example pick_next_song_party :
  bl._pick_next_song Examples.party = Return (Some Examples.A).
Proof. reflexivity. Qed.


Example pick_next_song_overflowing :
  bl._pick_next_song Examples.overflowing = Raise "integer overflow".
Proof. reflexivity. Qed.

(** ** The displayed queue and selection *)




(** ** The pending-next rule *)






(** The same on a snapshot of two items: [A] listed twice counts twice. *)
Example pending_next_as_specified_twice :
  ~ pending_next_as_specified
      (bl.mkEnv [Examples.A; Examples.A] (fun _ => Examples.accepts) 2000000000)
      Examples.after_two.
Proof.
  intros [H _]. specialize (H eq_refl). vm_compute in H. discriminate.
Qed.

(** ** A push that fails *)

(** Any HTTP error other than 401 and 429 makes the request return [None];
    404 with the reason NO_ACTIVE_DEVICE is one of them. *)
Lemma no_active_device_fails (ex : sp.Exchange) (song : Song) (body : string) :
  sp.first ex = sp.HTTPError 404 body -> sp.add_song_to_queue ex song = false.
Proof.
  intros H. unfold sp.add_song_to_queue, sp._authorized_request. rewrite H.
  destruct (negb (sp.truthy (song_id song))); [reflexivity|].
  destruct (negb (sp.has_token ex)); reflexivity.
Qed.

(** C4. When the tick reaches the push of the candidate [s] and the adapter
    reports failure, be it any failure or the answer 404 of a device that is
    not active, the tick returns false and the store is the one it started
    from: queue, votes, ledger and every [last_played]; selection on it
    returns [s] again. *)
Theorem push_failure_leaves_store (env : bl.Env) (st : db.DB) (s : Song) :
  bl.next_slot_open (db.get_last_added_song_ids st 2) (bl.sp_queue env) = true ->
  bl._pick_next_song st = Return (Some s) ->
  sp.add_song_to_queue (bl.sp_push env s) s = false \/
  (exists body, sp.first (bl.sp_push env s) = sp.HTTPError 404 body) ->
  bl.out_push (bl.check_sp_queue env st) = Some s /\
  bl.out_result (bl.check_sp_queue env st) = Return false /\
  bl.out_db (bl.check_sp_queue env st) = st /\
  bl._pick_next_song (bl.out_db (bl.check_sp_queue env st)) = Return (Some s).
Proof.
  intros Hopen Hpick Hfail.
  assert (Hpush : sp.add_song_to_queue (bl.sp_push env s) s = false).
  { destruct Hfail as [H|[body H]]; [exact H|].
    now apply no_active_device_fails with body. }
  unfold bl.check_sp_queue. rewrite Hopen, Hpick, Hpush. simpl.
  repeat split; assumption.
Qed.

Lemma push_failure_leaves_store_witness :
  let env := bl.mkEnv [] (fun _ => Examples.no_active_device) 2000000000 in
  bl.out_push (bl.check_sp_queue env Examples.party) = Some Examples.A /\
  bl.out_result (bl.check_sp_queue env Examples.party) = Return false /\
  bl.out_db (bl.check_sp_queue env Examples.party) = Examples.party /\
  bl._pick_next_song (bl.out_db (bl.check_sp_queue env Examples.party))
  = Return (Some Examples.A).
Proof.
  intros env.
  apply (push_failure_leaves_store env Examples.party Examples.A).
  - reflexivity.
  - reflexivity.
  - right. eexists. reflexivity.
Defined.

(** ** Voting *)


Lemma get_app_queue_id_not_queued (st : db.DB) (id : string) :
  ~ queued st id -> db._get_app_queue_id st id = None.
Proof.
  intros H. unfold db._get_app_queue_id, db.queue_row.
  now rewrite (proj2 (find_key_none db.aq_song_id _ _) H).
Qed.



Lemma int64_ok_out (v : Z) :
  v < int64_min \/ int64_max < v -> int64_ok v = false.
Proof. unfold int64_ok. lia. Qed.








Example vote_sum_after_two_votes :
  db.vote_sum (fst (bl.vote_song (fst (bl.vote_song Examples.party Examples.A "c1"%string 7))
                                 Examples.A "c1"%string (-3))) 1 = Some 2.
Proof. reflexivity. Qed.


(** ** Admission *)

Lemma add_song_known (st : db.DB) (s : Song) (lp : datetime) :
  last_played_of st (song_id s) = Some lp -> db.add_song st s = (st, Some lp).
Proof.
  unfold last_played_of, db.add_song.
  destruct (db.song_row st (song_id s)); [now intros ->|discriminate].
Qed.

Lemma add_song_present (st : db.DB) (s : Song) :
  In (song_id s) (map db.row_id (db.t_song st)) -> fst (db.add_song st s) = st.
Proof.
  intros H. unfold db.add_song, db.song_row.
  destruct (find_key_some db.row_id _ _ H) as (r & -> & _). reflexivity.
Qed.


Lemma add_song_row (st : db.DB) (s : Song) :
  In (song_id s) (map db.row_id (db.t_song (fst (db.add_song st s)))).
Proof.
  unfold db.add_song, db.song_row.
  destruct (find _ (db.t_song st)) as [r|] eqn:E; simpl.
  - apply find_key_inv in E. destruct E as [<- Hin]. now apply in_map.
  - rewrite map_app, in_app_iff. right. now left.
Qed.

Lemma check_song_in_app_queue_spec (st : db.DB) (s : Song) :
  db.check_song_in_app_queue st s = true <-> queued st (song_id s).
Proof. apply existsb_key. Qed.

(** Admission once the identifier resolved, step by step. *)
Lemma admission_resolved (ex : sp.Exchange) (now : datetime) (st : db.DB)
      (id : string) (s : Song) :
  sp.search_song ex id = Some s ->
  bl.add_song_to_app_queue ex now st id =
  let st1 := fst (db.add_song st s) in
  if db.check_song_in_app_queue st1 s then (st1, Return false)
  else if match snd (db.add_song st s) with
          | Some lp => now - lp <? timedelta_minutes 30
          | None => false
          end
       then (st1, Return false)
       else (fst (db.add_song_to_app_queue st1 s),
             Return (snd (db.add_song_to_app_queue st1 s))).
Proof.
  intros H. unfold bl.add_song_to_app_queue. rewrite H.
  destruct (db.add_song st s) as [st1 lp]. simpl.
  destruct (db.check_song_in_app_queue st1 s); [reflexivity|].
  destruct lp as [lp|]; [destruct (now - lp <? timedelta_minutes 30); [reflexivity|]|];
    destruct (db.add_song_to_app_queue st1 s); reflexivity.
Qed.

(** A song that has its row and no queue entry is inserted. *)
Lemma add_song_to_app_queue_fresh (st : db.DB) (s : Song) :
  In (song_id s) (map db.row_id (db.t_song st)) -> ~ queued st (song_id s) ->
  snd (db.add_song_to_app_queue st s) = true.
Proof.
  intros Hrow Hq. unfold db.add_song_to_app_queue.
  rewrite (proj2 (existsb_key_false db.aq_song_id _ _) Hq).
  rewrite (proj2 (existsb_key db.row_id _ _) Hrow). reflexivity.
Qed.

Lemma last_played_of_row (st : db.DB) (id : string) (lp : datetime) :
  last_played_of st id = Some lp -> In id (map db.row_id (db.t_song st)).
Proof.
  unfold last_played_of, db.song_row.
  destruct (find _ (db.t_song st)) as [r|] eqn:E; [|discriminate].
  intros _. apply find_key_inv in E. destruct E as [<- Hin]. now apply in_map.
Qed.

Lemma admission_too_recent (ex : sp.Exchange) (now : datetime) (st : db.DB)
      (id : string) (s : Song) (lp : datetime) :
  sp.search_song ex id = Some s ->
  last_played_of st (song_id s) = Some lp ->
  now - lp < timedelta_minutes 30 ->
  snd (bl.add_song_to_app_queue ex now st id) = Return false.
Proof.
  intros Hs Hlp H. rewrite (admission_resolved ex now st id s Hs).
  rewrite (add_song_known st s lp Hlp). simpl.
  destruct (db.check_song_in_app_queue st s); [reflexivity|].
  apply Z.ltb_lt in H. now rewrite H.
Qed.

Lemma admission_old_enough (ex : sp.Exchange) (now : datetime) (st : db.DB)
      (id : string) (s : Song) (lp : datetime) :
  sp.search_song ex id = Some s ->
  last_played_of st (song_id s) = Some lp ->
  timedelta_minutes 30 <= now - lp -> ~ queued st (song_id s) ->
  snd (bl.add_song_to_app_queue ex now st id) = Return true.
Proof.
  intros Hs Hlp H Hq. rewrite (admission_resolved ex now st id s Hs).
  rewrite (add_song_known st s lp Hlp). simpl.
  destruct (db.check_song_in_app_queue st s) eqn:E.
  - apply check_song_in_app_queue_spec in E. contradiction.
  - apply Z.ltb_ge in H. rewrite H. simpl.
    now rewrite (add_song_to_app_queue_fresh st s (last_played_of_row st _ lp Hlp) Hq).
Qed.

Lemma admission_not_found (ex : sp.Exchange) (now : datetime) (st : db.DB)
      (id : string) :
  sp.search_song ex id = None ->
  bl.add_song_to_app_queue ex now st id = (st, Raise "Track not found on Spotify.").
Proof. intros H. unfold bl.add_song_to_app_queue. now rewrite H. Qed.

(** C5, as the code has it. When the catalogue resolves the identifier to
    a song whose [last_played] is set: admission returns false when the
    time since [last_played] is below 30 minutes, and true when it is 30
    minutes or more and the song is not queued; 29 minutes give false and
    exactly 30 minutes give true. When the catalogue does not resolve the
    identifier, admission raises "Track not found on Spotify." before it
    reads [last_played], and leaves the store as it was. *)
Theorem admission_replay_window (ex : sp.Exchange) (now : datetime) (st : db.DB)
        (id : string) :
  (forall s lp,
     sp.search_song ex id = Some s ->
     last_played_of st (song_id s) = Some lp ->
     (now - lp < timedelta_minutes 30 ->
      snd (bl.add_song_to_app_queue ex now st id) = Return false) /\
     (timedelta_minutes 30 <= now - lp -> ~ queued st (song_id s) ->
      snd (bl.add_song_to_app_queue ex now st id) = Return true) /\
     (lp = now - timedelta_minutes 29 ->
      snd (bl.add_song_to_app_queue ex now st id) = Return false) /\
     (lp = now - timedelta_minutes 30 -> ~ queued st (song_id s) ->
      snd (bl.add_song_to_app_queue ex now st id) = Return true)) /\
  (sp.search_song ex id = None ->
   bl.add_song_to_app_queue ex now st id = (st, Raise "Track not found on Spotify.")).
Proof.
  split; [|apply admission_not_found].
  intros s lp Hs Hlp.
  pose proof (admission_too_recent ex now st id s lp Hs Hlp) as Hlt.
  pose proof (admission_old_enough ex now st id s lp Hs Hlp) as Hge.
  repeat split; [exact Hlt | exact Hge | |].
  - intros ->. apply Hlt. unfold timedelta_minutes, microseconds_per_second. lia.
  - intros ->. apply Hge. unfold timedelta_minutes, microseconds_per_second. lia.
Qed.

Lemma admission_replay_window_witness :
  ((2740000000 - 1000000000 < timedelta_minutes 30 ->
    snd (bl.add_song_to_app_queue (Examples.resolves Examples.A) 2740000000
                                  Examples.after_two "A") = Return false) /\
   (timedelta_minutes 30 <= 2740000000 - 1000000000 ->
    ~ queued Examples.after_two "A" ->
    snd (bl.add_song_to_app_queue (Examples.resolves Examples.A) 2740000000
                                  Examples.after_two "A") = Return true) /\
   (1000000000 = 2740000000 - timedelta_minutes 29 ->
    snd (bl.add_song_to_app_queue (Examples.resolves Examples.A) 2740000000
                                  Examples.after_two "A") = Return false) /\
   (1000000000 = 2740000000 - timedelta_minutes 30 ->
    ~ queued Examples.after_two "A" ->
    snd (bl.add_song_to_app_queue (Examples.resolves Examples.A) 2740000000
                                  Examples.after_two "A") = Return true)) /\
  bl.add_song_to_app_queue Examples.not_found 2740000000 Examples.after_two "A"
  = (Examples.after_two, Raise "Track not found on Spotify.").
Proof.
  split.
  - apply (proj1 (admission_replay_window (Examples.resolves Examples.A) 2740000000
                                          Examples.after_two "A")
                 Examples.A 1000000000); reflexivity.
  - apply (proj2 (admission_replay_window Examples.not_found 2740000000
                                          Examples.after_two "A")).
    reflexivity.
Defined.

(** C5, as stated, fails: on the store [after_two] the song [A] was played
    at second 1000; 29 minutes later, with a catalogue that does not
    resolve the identifier, admission does not return false. *)
Lemma admission_replay_window_counterexample :
  let now := 1000000000 + timedelta_minutes 29 in
  last_played_of Examples.after_two "A" = Some 1000000000 /\
  now - 1000000000 < timedelta_minutes 30 /\
  snd (bl.add_song_to_app_queue Examples.not_found now Examples.after_two "A")
  <> Return false.
Proof.
  intros now. split; [reflexivity|]. split; [vm_compute; reflexivity|].
  vm_compute. discriminate.
Qed.

(** The boundary on the store [after_two], where [A] was played at second
    1000: 29 minutes later it is refused, 30 minutes later admitted. *)
Example admission_after_29_minutes :
  snd (bl.add_song_to_app_queue (Examples.resolves Examples.A)
                                (1000000000 + timedelta_minutes 29)
                                Examples.after_two "A") = Return false.
Proof. reflexivity. Qed.

Example admission_after_30_minutes :
  snd (bl.add_song_to_app_queue (Examples.resolves Examples.A)
                                (1000000000 + timedelta_minutes 30)
                                Examples.after_two "A") = Return true.
Proof. reflexivity. Qed.

(** The entries of a queued song under the uniqueness of the column. *)
Lemma entries_of_queued (st : db.DB) (id : string) :
  wf st -> queued st id -> entries_of st id = 1%nat.
Proof.
  intros W Hq.
  unfold entries_of. pose proof (wf_aq_unique st W) as Hnd.
  unfold queued in Hq. revert Hnd Hq. generalize (db.t_app_queue st) as l.
  induction l as [|e t IH]; intros Hnd Hq; [destruct Hq|].
  inversion Hnd as [|? ? Hnin Hnd']; subst.
  destruct (String.eqb_spec (db.aq_song_id e) id) as [E|E].
  - rewrite filter_cons_true by now apply String.eqb_eq.
    simpl. f_equal. rewrite E in Hnin.
    apply length_zero_iff_nil.
    destruct (filter _ t) as [|x r] eqn:F; [reflexivity|]. exfalso.
    assert (Hx : In x (filter (fun e0 => String.eqb (db.aq_song_id e0) id) t))
      by (rewrite F; now left).
    apply filter_In in Hx. destruct Hx as [Hx Ex]. apply String.eqb_eq in Ex.
    apply Hnin. rewrite <- Ex. now apply in_map.
  - rewrite filter_cons_false by now apply String.eqb_neq.
    apply IH; [assumption|]. destruct Hq as [Hq|Hq]; [contradiction|assumption].
Qed.

(** C7, as the code has it. On a store that satisfies the schema: when the
    catalogue resolves the identifier to a song with a queue entry,
    admission returns false, the store is the one before the call, and the
    song has exactly one entry; when the catalogue does not resolve the
    identifier, admission raises "Track not found on Spotify." before it
    looks at the queue, and the store is the one before the call. *)
Theorem admission_of_queued_song (ex : sp.Exchange) (now : datetime) (st : db.DB)
        (id : string) :
  wf st ->
  (forall s,
     sp.search_song ex id = Some s ->
     queued st (song_id s) ->
     snd (bl.add_song_to_app_queue ex now st id) = Return false /\
     fst (bl.add_song_to_app_queue ex now st id) = st /\
     entries_of (fst (bl.add_song_to_app_queue ex now st id)) (song_id s) = 1%nat) /\
  (sp.search_song ex id = None ->
   bl.add_song_to_app_queue ex now st id = (st, Raise "Track not found on Spotify.")).
Proof.
  intros W. split; [|apply admission_not_found].
  intros s Hs Hq.
  assert (Hrow : In (song_id s) (map db.row_id (db.t_song st))).
  { unfold queued in Hq. apply in_map_iff in Hq. destruct Hq as (e & <- & He).
    pose proof (wf_aq_fk st W) as Hfk. rewrite Forall_forall in Hfk. now apply Hfk. }
  rewrite (admission_resolved ex now st id s Hs).
  rewrite (add_song_present st s Hrow). cbv zeta.
  rewrite (proj2 (check_song_in_app_queue_spec st s) Hq). simpl.
  split; [reflexivity|]. split; [reflexivity|].
  now apply entries_of_queued.
Qed.

Lemma admission_of_queued_song_witness :
  (snd (bl.add_song_to_app_queue (Examples.resolves Examples.B) 2000000000
                                 Examples.party "B") = Return false /\
   fst (bl.add_song_to_app_queue (Examples.resolves Examples.B) 2000000000
                                 Examples.party "B") = Examples.party /\
   entries_of (fst (bl.add_song_to_app_queue (Examples.resolves Examples.B) 2000000000
                                             Examples.party "B")) "B" = 1%nat) /\
  bl.add_song_to_app_queue Examples.not_found 2000000000 Examples.party "B"
  = (Examples.party, Raise "Track not found on Spotify.").
Proof.
  split.
  - apply (proj1 (admission_of_queued_song (Examples.resolves Examples.B) 2000000000
                                           Examples.party "B" wf_party)
                 Examples.B).
    + reflexivity.
    + unfold queued. simpl. auto.
  - apply (proj2 (admission_of_queued_song Examples.not_found 2000000000
                                           Examples.party "B" wf_party)).
    reflexivity.
Defined.

(** C7, as stated, fails: [B] has a queue entry on the store [party]; with
    a catalogue that does not resolve the identifier, admission does not
    return false. *)
Lemma admission_of_queued_song_counterexample :
  queued Examples.party "B" /\
  snd (bl.add_song_to_app_queue Examples.not_found 2000000000 Examples.party "B")
  <> Return false.
Proof.
  split; [unfold queued; simpl; auto|]. vm_compute. discriminate.
Qed.




(** ** A push that succeeds *)

(** What selection returns is the song of an entry, and has its row. *)
Lemma pick_next_song_queued (st : db.DB) (s : Song) :
  wf st -> bl._pick_next_song st = Return (Some s) ->
  queued st (song_id s) /\ In (song_id s) (map db.row_id (db.t_song st)).
Proof.
  intros W H.
  rewrite (pick_next_song_eq st W (pick_next_song_returns st _ H)) in H.
  destruct (order_by (entry_leb st) (db.t_app_queue st)) as [|e rest] eqn:E;
    [discriminate|].
  injection H as <-.
  assert (He : In e (db.t_app_queue st)).
  { apply (order_by_In (entry_leb st)). rewrite E. now left. }
  destruct (get_song_entry st e W He) as (_ & Hid & _). rewrite Hid.
  split.
  - unfold queued. now apply in_map.
  - pose proof (wf_aq_fk st W) as Hfk. rewrite Forall_forall in Hfk. now apply Hfk.
Qed.

(** The row of [song] a reader finds after [last_played] was set. *)
Lemma find_after_set_last_played (id : string) (iso : option iso_text)
      (l : list db.SongRow) :
  In id (map db.row_id l) ->
  exists r,
    find (fun r => String.eqb (db.row_id r) id)
         (map (fun r => if String.eqb (db.row_id r) id
                        then db.mkSongRow (db.row_id r) (db.row_name r) (db.row_artist r) iso
                        else r) l) = Some r /\
    db.row_last_played r = iso.
Proof.
  induction l as [|x t IH]; intros H; [destruct H|].
  simpl. destruct (String.eqb (db.row_id x) id) eqn:E; simpl.
  - rewrite E. now eexists.
  - rewrite E. apply IH. destruct H as [H|H]; [|assumption].
    apply String.eqb_neq in E. contradiction.
Qed.

(** The store after the bookkeeping, table by table. *)
Lemma after_push_eq (now : datetime) (st : db.DB) (s : Song) :
  In (song_id s) (map db.row_id (db.t_song st)) ->
  bl.after_push now st s =
  db.mkDB
    (map (fun r => if String.eqb (db.row_id r) (song_id s)
                   then db.mkSongRow (db.row_id r) (db.row_name r) (db.row_artist r)
                                     (db._to_utc_iso (Some now))
                   else r)
         (db.t_song st))
    (filter (fun r => negb (String.eqb (db.aq_song_id r) (song_id s))) (db.t_app_queue st))
    (db.seq_app_queue st)
    (filter (fun v => negb (existsb (fun r => db.aq_id r =? db.v_app_queue_id v)
                                    (filter (fun r => String.eqb (db.aq_song_id r) (song_id s))
                                            (db.t_app_queue st))))
            (db.t_votes st))
    (db.t_last_added_songs st ++ [db.mkLedgerRow (db.seq_last_added_songs st + 1) (song_id s)])
    (db.seq_last_added_songs st + 1).
Proof.
  intros Hrow. unfold bl.after_push, db.add_last_added_song_id.
  rewrite (proj2 (existsb_key db.row_id _ _) Hrow). cbn [fst].
  unfold db.remove_song_from_app_queue. cbn [fst db.t_song db.t_app_queue db.t_votes
    db.seq_app_queue db.t_last_added_songs db.seq_last_added_songs].
  unfold db.clear_votes.
  rewrite get_app_queue_id_not_queued.
  - reflexivity.
  - unfold queued. cbn [db.t_app_queue]. intros H.
    apply in_map_iff in H. destruct H as (e & He & Hin).
    apply filter_In in Hin. destruct Hin as [_ Hin].
    rewrite He, String.eqb_refl in Hin. discriminate.
Qed.

Lemma whole_second_stored (now : datetime) :
  db._from_utc_iso (db._to_utc_iso (Some now)) = Some (whole_second now).
Proof. reflexivity. Qed.

Lemma after_push_injected (now : datetime) (st : db.DB) (s : Song) :
  wf st ->
  In (song_id s) (map db.row_id (db.t_song st)) ->
  injected st (bl.after_push now st s) s (whole_second now).
Proof.
  intros W Hrow. rewrite (after_push_eq now st s Hrow). repeat split.
  - unfold queued. cbn [db.t_app_queue]. intros H.
    apply in_map_iff in H. destruct H as (e & He & Hin).
    apply filter_In in Hin. destruct Hin as [_ Hin].
    rewrite He, String.eqb_refl in Hin. discriminate.
  - intros e He Hid. unfold db.votes_of. cbn [db.t_votes].
    match goal with |- ?l = [] => destruct l as [|x r] eqn:F end; [reflexivity|].
    exfalso.
    assert (Hx : In x (x :: r)) by now left.
    rewrite <- F in Hx. apply filter_In in Hx. destruct Hx as [Hx Eq].
    apply filter_In in Hx. destruct Hx as [_ Hx].
    apply negb_true_iff in Hx.
    assert (Ht : existsb (fun r0 => db.aq_id r0 =? db.v_app_queue_id x)
                         (filter (fun r0 => String.eqb (db.aq_song_id r0) (song_id s))
                                 (db.t_app_queue st)) = true).
    { apply existsb_exists. exists e. split.
      - apply filter_In. split; [assumption|]. now apply String.eqb_eq.
      - apply Z.eqb_eq in Eq. apply Z.eqb_eq. now symmetry. }
    congruence.
  - unfold db.get_last_added_song_ids. cbn [db.t_last_added_songs Z.leb Z.compare].
    rewrite order_by_app_first; [reflexivity|].
    intros y Hy. pose proof (wf_la_seq st W) as Hseq. rewrite Forall_forall in Hseq.
    specialize (Hseq y Hy). cbn [db.la_id]. lia.
  - unfold last_played_of, db.song_row. cbn [db.t_song].
    destruct (find_after_set_last_played (song_id s) (db._to_utc_iso (Some now))
                                         (db.t_song st) Hrow) as (r & -> & ->).
    apply whole_second_stored.
Qed.

(** C3, as the code has it. On a store that satisfies the schema, when the
    tick pushes the candidate [s] and the push succeeds: the tick returns
    true, [s] has no queue entry, no vote is left on what was its entry,
    its identifier is the newest ledger record, and its [last_played] is
    the time stamp of the tick with the microseconds dropped. *)
Theorem injection_bookkeeping (env : bl.Env) (st : db.DB) (s : Song) :
  wf st ->
  bl.next_slot_open (db.get_last_added_song_ids st 2) (bl.sp_queue env) = true ->
  bl._pick_next_song st = Return (Some s) ->
  sp.add_song_to_queue (bl.sp_push env s) s = true ->
  bl.out_push (bl.check_sp_queue env st) = Some s /\
  bl.out_result (bl.check_sp_queue env st) = Return true /\
  injected st (bl.out_db (bl.check_sp_queue env st)) s (whole_second (bl.clock env)).
Proof.
  intros W Hopen Hpick Hpush.
  unfold bl.check_sp_queue. rewrite Hopen, Hpick, Hpush. simpl.
  repeat split; try reflexivity; apply after_push_injected;
    try assumption; now apply pick_next_song_queued.
Qed.

Lemma injection_bookkeeping_witness :
  let env := bl.mkEnv [] (fun _ => Examples.accepts) 5000000123 in
  bl.out_push (bl.check_sp_queue env Examples.party) = Some Examples.A /\
  bl.out_result (bl.check_sp_queue env Examples.party) = Return true /\
  injected Examples.party (bl.out_db (bl.check_sp_queue env Examples.party))
           Examples.A (whole_second 5000000123).
Proof.
  intros env.
  apply (injection_bookkeeping env Examples.party Examples.A).
  - exact wf_party.
  - reflexivity.
  - reflexivity.
  - reflexivity.
Defined.

(** C3, as stated, fails on the time stamp: the tick runs at 5000.000123 s,
    pushes [A] with success, and stores 5000 s as [last_played]. *)
Lemma injection_timestamp_counterexample :
  let env := bl.mkEnv [] (fun _ => Examples.accepts) 5000000123 in
  bl.out_push (bl.check_sp_queue env Examples.party) = Some Examples.A /\
  bl.out_result (bl.check_sp_queue env Examples.party) = Return true /\
  ~ injected Examples.party (bl.out_db (bl.check_sp_queue env Examples.party))
             Examples.A (bl.clock env).
Proof.
  intros env. repeat split.
  intros (_ & _ & _ & H). vm_compute in H. discriminate.
Qed.

Example last_played_after_injection :
  last_played_of
    (bl.out_db (bl.check_sp_queue (bl.mkEnv [] (fun _ => Examples.accepts) 5000000123)
                                  Examples.party)) "A"
  = Some 5000000000.
Proof. reflexivity. Qed.

(** ** Every operation keeps the schema *)

Section KeepKeys.
Context {A K : Type} (key : A -> K).

Lemma NoDup_map_filter (p : A -> bool) (l : list A) :
  NoDup (map key l) -> NoDup (map key (filter p l)).
Proof.
  induction l as [|x t IH]; intros H; [constructor|].
  inversion H as [|? ? Hnin Hnd]; subst. simpl.
  destruct (p x); [|now apply IH]. simpl. constructor; [|now apply IH].
  intros Hin. apply Hnin. apply in_map_iff in Hin. destruct Hin as (y & E & Hy).
  apply filter_In in Hy. apply in_map_iff. exists y. tauto.
Qed.

Lemma NoDup_map_snoc (l : list A) (x : A) :
  NoDup (map key l) -> ~ In (key x) (map key l) -> NoDup (map key (l ++ [x])).
Proof.
  intros Hnd Hnin. rewrite map_app. apply NoDup_app; [assumption| |].
  - simpl. constructor; [intros []|constructor].
  - intros a Ha [<-|[]]. contradiction.
Qed.

Lemma Forall_filter_keep (P : A -> Prop) (p : A -> bool) (l : list A) :
  Forall P l -> Forall P (filter p l).
Proof.
  rewrite !Forall_forall. intros H x Hx. apply filter_In in Hx. now apply H.
Qed.
End KeepKeys.

Lemma seq_fresh {A : Type} (id : A -> Z) (n : Z) (l : list A) (x : A) :
  Forall (fun r => id r <= n) l -> id x = n + 1 -> ~ In (id x) (map id l).
Proof.
  intros H E Hin. apply in_map_iff in Hin. destruct Hin as (y & Ey & Hy).
  rewrite Forall_forall in H. specialize (H y Hy). lia.
Qed.

Lemma search_song_id (ex : sp.Exchange) (id : string) (s : Song) :
  sp.search_song ex id = Some s -> song_id s <> EmptyString.
Proof.
  unfold sp.search_song, sp._item_to_song.
  destruct (negb (sp.truthy id)); [discriminate|].
  destruct (sp._authorized_request ex) as [[|it]|]; try discriminate.
  cbn [sp.item_type sp.item_id sp.item_name sp.item_artists].
  rewrite String.eqb_refl. cbn [negb].
  destruct (sp.truthy (sp.item_id it)) eqn:E; [|discriminate].
  cbn [negb orb].
  destruct (_ || _); [discriminate|].
  intros H. injection H as <-. cbn [song_id].
  unfold sp.truthy in E. apply negb_true_iff in E. now apply String.eqb_neq.
Qed.

Lemma wf_add_song (st : db.DB) (s : Song) :
  wf st -> song_id s <> EmptyString -> wf (fst (db.add_song st s)).
Proof.
  intros W Hne. unfold db.add_song.
  destruct (db.song_row st (song_id s)) as [r|] eqn:E; [exact W|].
  unfold db.song_row in E. apply find_key_none in E.
  destruct W. constructor; cbn [fst db.with_song db.t_song db.t_app_queue db.t_votes
    db.seq_app_queue db.t_last_added_songs db.seq_last_added_songs]; try assumption.
  - now apply NoDup_map_snoc.
  - apply Forall_app. split; [assumption|]. now constructor.
  - eapply Forall_impl; [|eassumption]. cbn beta. intros e He.
    rewrite map_app, in_app_iff. now left.
  - eapply Forall_impl; [|eassumption]. cbn beta. intros e He.
    rewrite map_app, in_app_iff. now left.
Qed.

Lemma wf_db_add_song_to_app_queue (st : db.DB) (s : Song) :
  wf st -> wf (fst (db.add_song_to_app_queue st s)).
Proof.
  intros W. unfold db.add_song_to_app_queue.
  destruct (existsb _ (db.t_app_queue st)) eqn:Eq; [exact W|].
  destruct (existsb _ (db.t_song st)) eqn:Es; [|exact W].
  apply existsb_key_false in Eq. apply existsb_key in Es.
  destruct W. constructor; cbn [fst orb negb db.t_song db.t_app_queue db.t_votes
    db.seq_app_queue db.t_last_added_songs db.seq_last_added_songs]; try assumption.
  - apply NoDup_map_snoc; [assumption|].
    now apply (seq_fresh db.aq_id (db.seq_app_queue st)).
  - apply Forall_app. split.
    + apply Forall_impl with (2 := wf_aq_seq0). cbn beta. intros; lia.
    + constructor; [cbn; lia|constructor].
  - now apply NoDup_map_snoc.
  - apply Forall_app. split; [assumption|]. now constructor.
  - apply Forall_impl with (2 := wf_votes_fk0). cbn beta. intros v Hv.
    rewrite map_app, in_app_iff. now left.
Qed.

Lemma wf_admission (ex : sp.Exchange) (now : datetime) (st : db.DB) (id : string) :
  wf st -> wf (fst (bl.add_song_to_app_queue ex now st id)).
Proof.
  intros W. destruct (sp.search_song ex id) as [s|] eqn:Hs.
  - rewrite (admission_resolved ex now st id s Hs). cbv zeta.
    pose proof (wf_add_song st s W (search_song_id ex id s Hs)) as W1.
    destruct (db.check_song_in_app_queue _ s); [exact W1|].
    destruct (match snd (db.add_song st s) with Some _ => _ | None => _ end);
      [exact W1|].
    now apply wf_db_add_song_to_app_queue.
  - unfold bl.add_song_to_app_queue. now rewrite Hs.
Qed.

Lemma upsert_vote_In (qid : Z) (c : string) (v : Z) (l : list db.VoteRow)
      (x : db.VoteRow) :
  In x (db.upsert_vote qid c v l) -> In x l \/ x = db.mkVoteRow qid c v.
Proof.
  induction l as [|r t IH]; simpl.
  - intros [<-|[]]. now right.
  - destruct (_ && _).
    + intros [<-|H]; [now right|]. left. now right.
    + intros [<-|H]; [left; now left|]. destruct (IH H); [left; now right|now right].
Qed.

Lemma upsert_vote_keys (qid : Z) (c : string) (v : Z) (l : list db.VoteRow) :
  NoDup (map (fun v => (db.v_app_queue_id v, db.v_client_id v)) l) ->
  NoDup (map (fun v => (db.v_app_queue_id v, db.v_client_id v))
             (db.upsert_vote qid c v l)).
Proof.
  induction l as [|r t IH]; intros H; simpl.
  - constructor; [intros []|constructor].
  - inversion H as [|? ? Hnin Hnd]; subst.
    destruct ((db.v_app_queue_id r =? qid) && String.eqb (db.v_client_id r) c) eqn:E.
    + apply andb_true_iff in E. destruct E as [E1 E2].
      apply Z.eqb_eq in E1. apply String.eqb_eq in E2. subst qid c.
      simpl. now constructor.
    + simpl. constructor; [|now apply IH].
      intros Hin. apply in_map_iff in Hin. destruct Hin as (y & Ey & Hy).
      apply upsert_vote_In in Hy. destruct Hy as [Hy| ->].
      * apply Hnin. apply in_map_iff. now exists y.
      * cbn in Ey. injection Ey as E1 E2.
        rewrite <- E1, <- E2, Z.eqb_refl, String.eqb_refl in E. discriminate.
Qed.

Lemma wf_vote (st : db.DB) (song : Song) (client_id : string) (vote : Z) :
  wf st -> wf (fst (bl.vote_song st song client_id vote)).
Proof.
  intros W. unfold bl.vote_song, db.vote_song.
  destruct (db._get_app_queue_id st (song_id song)) as [qid|] eqn:E; [|exact W].
  unfold db._get_app_queue_id, db.queue_row in E.
  destruct (find _ (db.t_app_queue st)) as [e|] eqn:F; [|discriminate].
  injection E as <-. apply find_key_inv in F. destruct F as [_ He].
  destruct (int64_ok vote) eqn:Hv; [|exact W].
  pose proof (wf_votes_int64 st W) as H64.
  destruct W. constructor; cbn [fst db.with_votes db.t_song db.t_app_queue db.t_votes
    db.seq_app_queue db.t_last_added_songs db.seq_last_added_songs]; try assumption.
  - now apply upsert_vote_keys.
  - rewrite Forall_forall in *. intros x Hx.
    apply upsert_vote_In in Hx. destruct Hx as [Hx| ->]; [now apply wf_votes_fk0|].
    cbn. now apply in_map.
  - rewrite Forall_forall in *. intros x Hx.
    apply upsert_vote_In in Hx. destruct Hx as [Hx| ->]; [now apply H64|].
    exact Hv.
Qed.

Lemma map_set_last_played_ids (id : string) (iso : option iso_text)
      (l : list db.SongRow) :
  map db.row_id
      (map (fun r => if String.eqb (db.row_id r) id
                     then db.mkSongRow (db.row_id r) (db.row_name r) (db.row_artist r) iso
                     else r) l)
  = map db.row_id l.
Proof.
  rewrite map_map. apply map_ext. intros r.
  destruct (String.eqb (db.row_id r) id); reflexivity.
Qed.

Lemma wf_after_push (now : datetime) (st : db.DB) (s : Song) :
  wf st -> In (song_id s) (map db.row_id (db.t_song st)) ->
  wf (bl.after_push now st s).
Proof.
  intros W Hrow. rewrite (after_push_eq now st s Hrow).
  destruct W. constructor; cbn [db.t_song db.t_app_queue db.t_votes
    db.seq_app_queue db.t_last_added_songs db.seq_last_added_songs];
    rewrite ?map_set_last_played_ids.
  - assumption.
  - apply Forall_forall. intros r Hr. apply in_map_iff in Hr.
    destruct Hr as (r0 & <- & Hr0). rewrite Forall_forall in wf_song_id0.
    specialize (wf_song_id0 r0 Hr0).
    destruct (String.eqb (db.row_id r0) (song_id s)); assumption.
  - now apply NoDup_map_filter.
  - now apply Forall_filter_keep.
  - now apply NoDup_map_filter.
  - now apply Forall_filter_keep.
  - now apply NoDup_map_filter.
  - apply Forall_forall. intros v Hv. apply filter_In in Hv. destruct Hv as [Hv Hc].
    rewrite Forall_forall in wf_votes_fk0. specialize (wf_votes_fk0 v Hv).
    apply in_map_iff in wf_votes_fk0. destruct wf_votes_fk0 as (e & Ee & He).
    apply in_map_iff. exists e. split; [assumption|].
    apply filter_In. split; [assumption|].
    destruct (String.eqb (db.aq_song_id e) (song_id s)) eqn:Eh; [|reflexivity].
    exfalso. apply negb_true_iff in Hc.
    assert (Ht : existsb (fun r => db.aq_id r =? db.v_app_queue_id v)
                         (filter (fun r => String.eqb (db.aq_song_id r) (song_id s))
                                 (db.t_app_queue st)) = true).
    { apply existsb_exists. exists e. split.
      - apply filter_In. now split.
      - now apply Z.eqb_eq. }
    congruence.
  - now apply Forall_filter_keep.
  - apply NoDup_map_snoc; [assumption|].
    now apply (seq_fresh db.la_id (db.seq_last_added_songs st)).
  - apply Forall_app. split.
    + apply Forall_impl with (2 := wf_la_seq0). cbn beta. intros; lia.
    + constructor; [cbn; lia|constructor].
  - apply Forall_app. split; [assumption|]. now constructor.
Qed.

Lemma wf_tick (env : bl.Env) (st : db.DB) :
  wf st -> wf (bl.out_db (bl.check_sp_queue env st)).
Proof.
  intros W. unfold bl.check_sp_queue.
  destruct (bl.next_slot_open _ _); [|exact W].
  destruct (bl._pick_next_song st) as [[s|]|e] eqn:Hp; [|exact W|exact W].
  destruct (sp.add_song_to_queue _ s); [|exact W].
  cbn. apply wf_after_push; [assumption|]. now apply pick_next_song_queued.
Qed.

(** X26. Every store that admissions, votes and ticks can build from the
    empty one, in whatever environment, satisfies the schema: identifiers
    of songs are unique and not empty, a song has at most one queue entry
    and every entry a song, a client has at most one vote on an entry,
    every vote has an entry and a value that fits a signed 64-bit integer,
    and no ordinal exceeds the counter of its table. *)
Theorem reachable_wf (st : db.DB) : reachable st -> wf st.
Proof.
  induction 1 as [|st st' _ IH Hstep]; [exact wf_empty|].
  destruct Hstep; [now apply wf_admission | now apply wf_vote | now apply wf_tick].
Qed.

Lemma reachable_wf_witness :
  wf (fst (bl.vote_song
             (fst (bl.add_song_to_app_queue (Examples.resolves Examples.A) 0 db.empty "A"))
             Examples.A "c1" 1)).
Proof.
  apply reachable_wf.
  repeat (eapply reachable_step; [|constructor]). constructor.
Defined.

(** ** The end-to-end scenario *)

(** From the empty store: admit [A], two clients vote +1 and +5 on it,
    admit [B], one client votes -1 on it.  This is the store [party]. *)
Example party_built :
  let st := fst (bl.add_song_to_app_queue (Examples.resolves Examples.A) 0 db.empty "A") in
  let st := fst (bl.vote_song st Examples.A "c1" 1) in
  let st := fst (bl.vote_song st Examples.A "c2" 5) in
  let st := fst (bl.add_song_to_app_queue (Examples.resolves Examples.B) 0 st "B") in
  let st := fst (bl.vote_song st Examples.B "c1" (-1)) in
  st = Examples.party.
Proof. reflexivity. Qed.

Example party_reachable : reachable Examples.party.
Proof.
  pose proof party_built as H. cbv zeta in H. rewrite <- H.
  repeat (eapply reachable_step; [|constructor]). constructor.
Qed.

(** A tick on [party] with nothing playing and an empty ledger injects
    [A]: the queue keeps [B] alone with its vote, the ledger is [A]. *)
Example party_tick :
  let out := bl.check_sp_queue (bl.mkEnv [] (fun _ => Examples.accepts) 5000000000)
                               Examples.party in
  bl.out_result out = Return true /\
  bl.get_queue (bl.out_db out) None = Return [(Examples.B, -1, 0)] /\
  db.get_last_added_song_ids (bl.out_db out) 2 = ["A"%string] /\
  last_played_of (bl.out_db out) "A" = Some 5000000000.
Proof. repeat split. Qed.

(** The store [overflowing] is built the same way, with the votes 2^63-1
    and 2 of two clients on [B]: each vote is accepted, and from then on
    selection, the queue and the tick raise. *)
Example overflowing_built :
  let st := fst (bl.add_song_to_app_queue (Examples.resolves Examples.A) 0 db.empty "A") in
  let st := fst (bl.vote_song st Examples.A "c1" 1) in
  let st := fst (bl.vote_song st Examples.A "c2" 5) in
  let st := fst (bl.add_song_to_app_queue (Examples.resolves Examples.B) 0 st "B") in
  let st := fst (bl.vote_song st Examples.B "c1" int64_max) in
  snd (bl.vote_song st Examples.B "c2" 2) = Return true /\
  fst (bl.vote_song st Examples.B "c2" 2) = Examples.overflowing.
Proof. split; reflexivity. Qed.

Example overflowing_reachable : reachable Examples.overflowing.
Proof.
  pose proof overflowing_built as H. cbv zeta in H. destruct H as [_ H].
  rewrite <- H.
  repeat (eapply reachable_step; [|constructor]). constructor.
Qed.

Example overflowing_tick :
  bl.check_sp_queue (bl.mkEnv [] (fun _ => Examples.accepts) 5000000000)
                    Examples.overflowing
  = bl.mkOutcome Examples.overflowing (Raise "integer overflow") None.
Proof. reflexivity. Qed.

(** * More of the store *)

(** ** The catalogue *)

(** X1. The text of [last_played] and the instant it denotes: parsing and
    serializing again gives the text back; serializing an instant and
    parsing gives the start of the second the instant lies in. *)
Theorem utc_iso_round_trip (d : datetime) (t : iso_text) :
  db._to_utc_iso (db._from_utc_iso (Some t)) = Some t /\
  exists d', db._from_utc_iso (db._to_utc_iso (Some d)) = Some d' /\
             d' <= d < d' + microseconds_per_second /\
             d' mod microseconds_per_second = 0 /\
             db._to_utc_iso (Some d') = db._to_utc_iso (Some d).
Proof.
  split.
  - destruct t as [n]. cbn. unfold microseconds_per_second.
    now rewrite Z.div_mul by lia.
  - exists (whole_second d). unfold whole_second, microseconds_per_second. cbn.
    unfold microseconds_per_second.
    pose proof (Z.div_mod d 1000000 ltac:(lia)) as Hdm.
    pose proof (Z.mod_pos_bound d 1000000 ltac:(lia)) as Hb.
    repeat split; try lia.
    + apply Z.mod_mul. lia.
    + now rewrite Z.div_mul by lia.
Qed.

Lemma find_snoc {A : Type} (p : A -> bool) (l : list A) (x : A) :
  find p (l ++ [x]) =
  match find p l with
  | Some y => Some y
  | None => if p x then Some x else None
  end.
Proof.
  induction l as [|a t IH]; simpl; [reflexivity|].
  destruct (p a); [reflexivity|exact IH].
Qed.

(** X2. Looking a song up after [add_song]: a song whose identifier the
    catalogue already holds keeps the name and artist stored first, a new
    one is stored as given, every other identifier reads as before; the
    value returned is the [last_played] on record, none for a new song. *)
Theorem add_song_then_get_song (st : db.DB) (s : Song) (id : string) :
  db.get_song (fst (db.add_song st s)) id =
  (if String.eqb id (song_id s)
   then match db.get_song st id with
        | Some old => Some old
        | None => Some s
        end
   else db.get_song st id) /\
  snd (db.add_song st s) = last_played_of st (song_id s).
Proof.
  unfold db.add_song, last_played_of, db.get_song.
  destruct (String.eqb_spec id (song_id s)) as [->|Hne].
  - destruct (db.song_row st (song_id s)) as [r|] eqn:E; cbn [fst snd].
    + now rewrite E.
    + unfold db.song_row in *. cbn [db.with_song db.t_song].
      rewrite find_snoc, E. cbn [db.row_id]. rewrite String.eqb_refl.
      destruct s. now split.
  - destruct (db.song_row st (song_id s)) as [r|] eqn:E; cbn [fst snd];
      [now split|].
    split; [|reflexivity].
    unfold db.song_row. cbn [db.with_song db.t_song].
    rewrite find_snoc. cbn [db.row_id].
    apply String.eqb_neq in Hne. rewrite String.eqb_sym, Hne.
    destruct (find _ (db.t_song st)); reflexivity.
Qed.

Lemma find_set_last_played (id id' : string) (iso : option iso_text)
      (l : list db.SongRow) :
  find (fun r => String.eqb (db.row_id r) id')
       (map (fun r => if String.eqb (db.row_id r) id
                      then db.mkSongRow (db.row_id r) (db.row_name r) (db.row_artist r) iso
                      else r) l)
  = option_map (fun r => if String.eqb (db.row_id r) id
                         then db.mkSongRow (db.row_id r) (db.row_name r) (db.row_artist r) iso
                         else r)
               (find (fun r => String.eqb (db.row_id r) id') l).
Proof.
  induction l as [|x t IH]; [reflexivity|].
  cbn [map find].
  assert (E : db.row_id (if String.eqb (db.row_id x) id
                         then db.mkSongRow (db.row_id x) (db.row_name x) (db.row_artist x) iso
                         else x) = db.row_id x)
    by (destruct (String.eqb (db.row_id x) id); reflexivity).
  rewrite E. destruct (String.eqb (db.row_id x) id'); [reflexivity|exact IH].
Qed.

(** X3. After [set_last_played] on a song: it reads back with the time
    stamp cut to the second when the catalogue holds the song, and the
    call changes no row when it does not, although it still returns that
    time stamp; names and artists, and the [last_played] of every other
    song, are as before. *)
Theorem set_last_played_lookup (st : db.DB) (s : Song) (t : datetime) (id : string) :
  let st' := fst (db.set_last_played st s t) in
  snd (db.set_last_played st s t) = Some (whole_second t) /\
  db.get_song st' id = db.get_song st id /\
  last_played_of st' id =
  (if String.eqb id (song_id s)
   then match db.song_row st id with
        | Some _ => Some (whole_second t)
        | None => None
        end
   else last_played_of st id) /\
  (db.song_row st (song_id s) = None -> st' = st).
Proof.
  cbv zeta. unfold db.set_last_played. cbn [fst snd].
  split; [reflexivity|].
  unfold db.get_song, last_played_of, db.song_row. cbn [db.with_song db.t_song].
  rewrite find_set_last_played. repeat split.
  - destruct (find _ (db.t_song st)) as [r|]; [|reflexivity]. cbn [option_map].
    destruct (String.eqb (db.row_id r) (song_id s)); reflexivity.
  - destruct (find (fun r => String.eqb (db.row_id r) id) (db.t_song st)) as [r|] eqn:E;
      cbn [option_map].
    + apply find_key_inv in E. destruct E as [<- _].
      destruct (String.eqb (db.row_id r) (song_id s)); reflexivity.
    + destruct (String.eqb id (song_id s)); reflexivity.
  - intros Hnone. apply find_key_none in Hnone.
    destruct st as [songs aq aseq votes la lseq]. unfold db.with_song. cbn in *.
    f_equal. rewrite <- (map_id songs) at 2. apply map_ext_in. intros r Hr.
    destruct (String.eqb_spec (db.row_id r) (song_id s)) as [E|E]; [|reflexivity].
    exfalso. apply Hnone. rewrite <- E. now apply in_map.
Qed.

Lemma set_last_played_lookup_witness :
  fst (db.set_last_played Examples.party Examples.X 5000000123) = Examples.party.
Proof.
  apply (set_last_played_lookup Examples.party Examples.X 5000000123 "X").
  reflexivity.
Defined.

(** ** The queue table *)

(** X4. The INSERT into [app_queue] succeeds exactly when the catalogue
    holds the song and the song has no entry; when it fails the store is
    untouched, when it succeeds the song is queued and the queue is one
    entry longer. *)
Theorem db_add_song_to_app_queue_spec (st : db.DB) (s : Song) :
  (snd (db.add_song_to_app_queue st s) = true <->
   In (song_id s) (map db.row_id (db.t_song st)) /\ ~ queued st (song_id s)) /\
  (snd (db.add_song_to_app_queue st s) = false ->
   fst (db.add_song_to_app_queue st s) = st) /\
  (snd (db.add_song_to_app_queue st s) = true ->
   queued (fst (db.add_song_to_app_queue st s)) (song_id s) /\
   List.length (db.t_app_queue (fst (db.add_song_to_app_queue st s)))
   = S (List.length (db.t_app_queue st))).
Proof.
  unfold db.add_song_to_app_queue, queued.
  destruct (existsb _ (db.t_app_queue st)) eqn:Eq.
  - apply existsb_key in Eq. cbn [orb negb fst snd]. split; [|split].
    + split; [discriminate|]. intros [_ H]. contradiction.
    + reflexivity.
    + discriminate.
  - apply existsb_key_false in Eq. destruct (existsb _ (db.t_song st)) eqn:Es.
    + apply existsb_key in Es. cbn [orb negb fst snd db.t_app_queue].
      split; [|split].
      * split; [intros _; now split|reflexivity].
      * discriminate.
      * intros _. split.
        -- rewrite map_app, in_app_iff. right. now left.
        -- rewrite length_app. cbn. lia.
    + apply existsb_key_false in Es. cbn [orb negb fst snd]. split; [|split].
      * split; [discriminate|]. intros [H _]. contradiction.
      * reflexivity.
      * discriminate.
Qed.

Lemma db_add_song_to_app_queue_spec_witness :
  queued (fst (db.add_song_to_app_queue Examples.after_two Examples.A)) "A" /\
  List.length (db.t_app_queue (fst (db.add_song_to_app_queue Examples.after_two Examples.A)))
  = S (List.length (db.t_app_queue Examples.after_two)).
Proof.
  apply (db_add_song_to_app_queue_spec Examples.after_two Examples.A).
  reflexivity.
Defined.

Lemma vote_sum_beyond_seq (st : db.DB) (qid : Z) :
  wf st -> db.seq_app_queue st < qid -> db.votes_of st qid = [].
Proof.
  intros W Hlt. unfold db.votes_of.
  destruct (filter _ (db.t_votes st)) as [|x r] eqn:F; [reflexivity|]. exfalso.
  assert (Hx : In x (filter (fun v => db.v_app_queue_id v =? qid) (db.t_votes st)))
    by (rewrite F; now left).
  apply filter_In in Hx. destruct Hx as [Hx E]. apply Z.eqb_eq in E.
  pose proof (wf_votes_fk st W) as Hfk. rewrite Forall_forall in Hfk.
  specialize (Hfk x Hx). apply in_map_iff in Hfk. destruct Hfk as (e & Ee & He).
  pose proof (wf_aq_seq st W) as Hseq. rewrite Forall_forall in Hseq.
  specialize (Hseq e He). lia.
Qed.

(** X5. On a store that satisfies the schema, the entry a successful
    INSERT creates has an ordinal above every ordinal of the queue and
    starts without votes, so with the vote sum 0; the entries that were
    there keep their ordinals and sums. *)
Theorem new_entry_starts_clean (st : db.DB) (s : Song) :
  wf st ->
  snd (db.add_song_to_app_queue st s) = true ->
  let st' := fst (db.add_song_to_app_queue st s) in
  exists qid,
    db._get_app_queue_id st' (song_id s) = Some qid /\
    (forall e, In e (db.t_app_queue st) -> db.aq_id e < qid) /\
    db.votes_of st' qid = [] /\ db.vote_sum st' qid = Some 0 /\
    (forall e, In e (db.t_app_queue st) ->
               In e (db.t_app_queue st') /\
               db.vote_sum st' (db.aq_id e) = db.vote_sum st (db.aq_id e)).
Proof.
  intros W Hok. cbv zeta. revert Hok. unfold db.add_song_to_app_queue.
  destruct (existsb _ (db.t_app_queue st)) eqn:Eq; [discriminate|].
  destruct (existsb _ (db.t_song st)) eqn:Es; [|discriminate].
  cbn [orb negb fst snd]. intros _.
  exists (db.seq_app_queue st + 1).
  apply existsb_key_false in Eq.
  assert (Hv : db.votes_of st (db.seq_app_queue st + 1) = [])
    by (apply vote_sum_beyond_seq; [assumption|lia]).
  repeat split.
  - unfold db._get_app_queue_id, db.queue_row. cbn [db.t_app_queue].
    rewrite find_snoc.
    rewrite (proj2 (find_key_none db.aq_song_id _ _) Eq).
    cbn [db.aq_song_id]. now rewrite String.eqb_refl.
  - intros e He. pose proof (wf_aq_seq st W) as Hseq.
    rewrite Forall_forall in Hseq. specialize (Hseq e He). lia.
  - exact Hv.
  - unfold db.vote_sum. unfold db.votes_of in *. cbn [db.t_votes]. now rewrite Hv.
  - cbn [db.t_app_queue]. apply in_app_iff. now left.
Qed.

Lemma new_entry_starts_clean_witness :
  let st' := fst (db.add_song_to_app_queue Examples.after_two Examples.A) in
  exists qid,
    db._get_app_queue_id st' "A" = Some qid /\
    (forall e, In e (db.t_app_queue Examples.after_two) -> db.aq_id e < qid) /\
    db.votes_of st' qid = [] /\ db.vote_sum st' qid = Some 0 /\
    (forall e, In e (db.t_app_queue Examples.after_two) ->
               In e (db.t_app_queue st') /\
               db.vote_sum st' (db.aq_id e) = db.vote_sum Examples.after_two (db.aq_id e)).
Proof.
  apply (new_entry_starts_clean Examples.after_two Examples.A).
  - exact wf_after_two.
  - reflexivity.
Defined.

(** ** The displayed queue *)

Section OrderBySorted.
Context {A : Type} (leb : A -> A -> bool).

Lemma insert_row_perm (x : A) (l : list A) :
  Permutation (insert_row leb x l) (x :: l).
Proof.
  induction l as [|y t IH]; simpl; [reflexivity|].
  destruct (leb x y); [reflexivity|].
  rewrite IH. apply perm_swap.
Qed.

Lemma order_by_perm (l : list A) : Permutation (order_by leb l) l.
Proof.
  induction l as [|x t IH]; simpl; [reflexivity|].
  rewrite insert_row_perm. now constructor.
Qed.

Hypothesis leb_total : forall a b, leb a b = false -> leb b a = true.
Hypothesis leb_trans : forall a b c, leb a b = true -> leb b c = true -> leb a c = true.

Lemma insert_row_sorted (x : A) (l : list A) :
  StronglySorted (fun a b => leb a b = true) l ->
  StronglySorted (fun a b => leb a b = true) (insert_row leb x l).
Proof.
  induction 1 as [|y t Hs IH Hy]; simpl.
  - constructor; constructor.
  - destruct (leb x y) eqn:E.
    + constructor; [now constructor|]. constructor; [assumption|].
      eapply Forall_impl; [|exact Hy]. cbn beta. intros z Hz.
      now apply leb_trans with y.
    + constructor; [assumption|].
      rewrite Forall_forall in *. intros z Hz.
      apply insert_row_In in Hz. destruct Hz as [->|Hz]; [now apply leb_total|].
      now apply Hy.
Qed.

Lemma order_by_sorted (l : list A) :
  StronglySorted (fun a b => leb a b = true) (order_by leb l).
Proof.
  induction l as [|x t IH]; simpl; [constructor|]. now apply insert_row_sorted.
Qed.
End OrderBySorted.

Lemma StronglySorted_map {A B : Type} (f : A -> B) (R : A -> A -> Prop)
      (R' : B -> B -> Prop) (l : list A) :
  (forall a b, R a b -> R' (f a) (f b)) ->
  StronglySorted R l -> StronglySorted R' (map f l).
Proof.
  intros HR. induction 1 as [|x t Hs IH Hx]; simpl; constructor; [assumption|].
  apply Forall_map. eapply Forall_impl; [|exact Hx]. cbn beta. intros; now apply HR.
Qed.

(** When the queue is returned, no sum overflowed. *)
Lemma get_queue_returns (st : db.DB) (client_id : option string)
      (items : list (Song * Z * Z)) :
  wf st -> bl.get_queue st client_id = Return items -> sums_fit st.
Proof.
  intros W H e He Hov. unfold bl.get_queue in H.
  rewrite (get_app_queue_raise st client_id e W He Hov) in H. discriminate.
Qed.

(** X6. On a store that satisfies the schema and on which no sum of an
    entry's votes overflows 64 bits, [get_queue] returns a list that names
    every queued song exactly once and is sorted by vote sum, highest
    first. *)
Theorem get_queue_complete_and_sorted (st : db.DB) (client_id : option string) :
  wf st -> sums_fit st ->
  exists items,
    bl.get_queue st client_id = Return items /\
    Permutation (map (fun item => song_id (fst (fst item))) items)
                (map db.aq_song_id (db.t_app_queue st)) /\
    NoDup (map (fun item => song_id (fst (fst item))) items) /\
    StronglySorted (fun a b => snd (fst b) <= snd (fst a)) items.
Proof.
  intros W Hfit. unfold bl.get_queue. rewrite (get_app_queue_eq st client_id W Hfit).
  eexists. split; [reflexivity|].
  assert (Hperm : Permutation
                    (map (fun item : Song * Z * Z => song_id (fst (fst item)))
                         (map (fun e => (song_of_row (joined_row st e),
                                         vote_total st (db.aq_id e),
                                         client_vote_of st (db.aq_id e) client_id))
                              (order_by (entry_leb st) (db.t_app_queue st))))
                    (map db.aq_song_id (db.t_app_queue st))).
  { rewrite map_map. cbn [fst].
    rewrite (Permutation_map _ (order_by_perm (entry_leb st) (db.t_app_queue st))).
    replace (map (fun x => song_id (song_of_row (joined_row st x))) (db.t_app_queue st))
      with (map db.aq_song_id (db.t_app_queue st)); [reflexivity|].
    apply map_ext_in. intros e He.
    pose proof (wf_aq_fk st W) as Hfk. rewrite Forall_forall in Hfk.
    destruct (joined_row_found st e (Hfk e He)) as [_ Hid]. now rewrite <- Hid. }
  split; [exact Hperm|]. split.
  - apply Permutation_sym in Hperm.
    apply (Permutation_NoDup Hperm). apply (wf_aq_unique st W).
  - apply StronglySorted_map with (R := fun a b => entry_leb st a b = true).
    + intros a b H. unfold entry_leb in H. apply total_desc_qid_asc_spec in H.
      cbn in *. lia.
    + apply order_by_sorted; [apply entry_leb_total|apply entry_leb_trans].
Qed.

Lemma get_queue_complete_and_sorted_witness :
  exists items,
    bl.get_queue Examples.party (Some "c1"%string) = Return items /\
    Permutation (map (fun item => song_id (fst (fst item))) items)
                (map db.aq_song_id (db.t_app_queue Examples.party)) /\
    NoDup (map (fun item => song_id (fst (fst item))) items) /\
    StronglySorted (fun a b => snd (fst b) <= snd (fst a)) items.
Proof.
  apply (get_queue_complete_and_sorted Examples.party (Some "c1"%string)).
  - exact wf_party.
  - exact sums_fit_party.
Defined.

(** X7. On a store that satisfies the schema, an item of a list
    [get_queue] returns for a client stands for a queue entry: it carries
    the sum of the votes of the entry, which is what the query of the sum
    returns, and, as the client's vote, the value of the client's vote row
    on the entry, or 0 when the client has none; without a client
    identifier every client vote is 0. *)
Theorem get_queue_item (st : db.DB) (client_id : option string)
        (items : list (Song * Z * Z)) (s : Song) (vote_sum client_vote : Z) :
  wf st ->
  bl.get_queue st client_id = Return items ->
  In (s, vote_sum, client_vote) items ->
  exists e,
    In e (db.t_app_queue st) /\ db.aq_song_id e = song_id s /\
    vote_sum = vote_total st (db.aq_id e) /\
    db.vote_sum st (db.aq_id e) = Some vote_sum /\
    match client_id with
    | None => client_vote = 0
    | Some c =>
        (forall v, In (db.mkVoteRow (db.aq_id e) c v) (db.t_votes st) ->
                   client_vote = v) /\
        ((forall v, ~ In (db.mkVoteRow (db.aq_id e) c v) (db.t_votes st)) ->
         client_vote = 0)
    end.
Proof.
  intros W Hret Hin.
  pose proof (get_queue_returns st client_id items W Hret) as Hfit.
  unfold bl.get_queue in Hret.
  rewrite (get_app_queue_eq st client_id W Hfit) in Hret. injection Hret as <-.
  apply in_map_iff in Hin. destruct Hin as (e & E & He).
  apply (proj1 (order_by_In (entry_leb st) e _)) in He.
  injection E as <- <- <-.
  exists e. split; [assumption|].
  pose proof (wf_aq_fk st W) as Hfk. rewrite Forall_forall in Hfk.
  destruct (joined_row_found st e (Hfk e He)) as [_ Hid].
  split; [now rewrite <- Hid|]. split; [reflexivity|].
  split; [now apply sums_fit_total|].
  unfold client_vote_of.
  destruct (client_vote_sum_fits st (db.aq_id e) client_id W) as (cv & -> & Hcv).
  destruct client_id as [c|]; [|now rewrite Hcv].
  destruct Hcv as [Hrow Hnone]. split.
  - intros v Hv. now rewrite (Hrow v Hv).
  - intros Hn. now rewrite (Hnone Hn).
Qed.

Lemma get_queue_item_witness :
  exists e,
    In e (db.t_app_queue Examples.party) /\ db.aq_song_id e = song_id Examples.B /\
    -1 = vote_total Examples.party (db.aq_id e) /\
    db.vote_sum Examples.party (db.aq_id e) = Some (-1) /\
    (forall v, In (db.mkVoteRow (db.aq_id e) "c1" v) (db.t_votes Examples.party) ->
               -1 = v) /\
    ((forall v, ~ In (db.mkVoteRow (db.aq_id e) "c1" v) (db.t_votes Examples.party)) ->
     -1 = 0).
Proof.
  apply (get_queue_item Examples.party (Some "c1"%string)
                        [(Examples.A, 6, 1); (Examples.B, -1, -1)] Examples.B (-1) (-1)).
  - exact wf_party.
  - reflexivity.
  - right. left. reflexivity.
Defined.

(** ** Votes *)

Lemma filter_filter_andb {A : Type} (f g : A -> bool) (l : list A) :
  filter f (filter g l) = filter (fun x => g x && f x) l.
Proof.
  induction l as [|x t IH]; [reflexivity|].
  simpl. destruct (g x); simpl; [destruct (f x)|]; now rewrite ?IH.
Qed.

Lemma filter_filter_implied {A : Type} (f g : A -> bool) (l : list A) :
  (forall x, In x l -> f x = true -> g x = true) ->
  filter f (filter g l) = filter f l.
Proof.
  intros H. rewrite filter_filter_andb. apply filter_ext_in. intros x Hx.
  specialize (H x Hx). destruct (f x); [now rewrite H|apply andb_false_r].
Qed.

Lemma filter_all {A : Type} (f : A -> bool) (l : list A) :
  (forall x, In x l -> f x = true) -> filter f l = l.
Proof.
  intros H. induction l as [|x t IH]; [reflexivity|].
  simpl. rewrite (H x) by now left. f_equal. apply IH. intros; apply H; now right.
Qed.

Lemma filter_none {A : Type} (f : A -> bool) (l : list A) :
  (forall x, In x l -> f x = false) -> filter f l = [].
Proof.
  intros H. induction l as [|x t IH]; [reflexivity|].
  simpl. rewrite (H x) by now left. apply IH. intros; apply H; now right.
Qed.

Lemma upsert_vote_has (qid : Z) (c : string) (v : Z) (l : list db.VoteRow) :
  In (db.mkVoteRow qid c v) (db.upsert_vote qid c v l).
Proof.
  induction l as [|r t IH]; simpl; [now left|].
  destruct (_ && _); [now left|now right].
Qed.

(** The upsert is invisible to a selection that leaves the key out. *)
Lemma upsert_vote_filter (p : db.VoteRow -> bool) (qid : Z) (c : string) (v : Z)
      (l : list db.VoteRow) :
  (forall w, p (db.mkVoteRow qid c w) = false) ->
  filter p (db.upsert_vote qid c v l) = filter p l.
Proof.
  intros Hp. induction l as [|r t IH]; simpl.
  - now rewrite Hp.
  - destruct ((db.v_app_queue_id r =? qid) && String.eqb (db.v_client_id r) c) eqn:E.
    + apply andb_true_iff in E. destruct E as [E1 E2].
      apply Z.eqb_eq in E1. apply String.eqb_eq in E2.
      destruct r as [a b w]. cbn in E1, E2. subst a b.
      simpl. now rewrite !Hp.
    + simpl. now rewrite IH.
Qed.

(** X8. On a store that satisfies the schema, a vote on a queued song
    whose value fits a signed 64-bit integer reads back as that client's
    vote on the entry; a vote whose value does not fit leaves the store as
    it was. Either way the vote changes nothing else: the votes of the
    other clients on the entry, the votes on every other entry, the queue,
    the catalogue and the ledger are as before. *)
Theorem vote_song_frame (st : db.DB) (song : Song) (client_id : string)
        (vote : Z) (qid : Z) :
  wf st ->
  db._get_app_queue_id st (song_id song) = Some qid ->
  let st' := fst (bl.vote_song st song client_id vote) in
  (int64_min <= vote <= int64_max ->
   db.client_vote_sum st' qid (Some client_id) = Some (Some vote)) /\
  (vote < int64_min \/ int64_max < vote -> st' = st) /\
  (forall c, c <> client_id ->
             db.client_vote_sum st' qid (Some c) = db.client_vote_sum st qid (Some c)) /\
  (forall q, q <> qid -> db.votes_of st' q = db.votes_of st q) /\
  db.t_app_queue st' = db.t_app_queue st /\
  db.t_song st' = db.t_song st /\
  db.t_last_added_songs st' = db.t_last_added_songs st.
Proof.
  intros W Hq. cbv zeta. unfold bl.vote_song, db.vote_song. rewrite Hq.
  destruct (int64_ok vote) eqn:Hv; cbn [fst].
  - unfold db.client_vote_sum, db.votes_of.
    cbn [db.with_votes db.t_votes db.t_app_queue db.t_song db.t_last_added_songs].
    split; [|split; [|split; [|split; [|split; [|split]]]]]; try reflexivity.
    + intros _. rewrite (votes_pk_single qid client_id vote).
      * cbn [map sql_sum sum_int64 sum_int64_from option_map db.v_vote].
        rewrite Z.add_0_l, Hv. reflexivity.
      * apply upsert_vote_keys, (wf_votes_pk st W).
      * apply upsert_vote_has.
    + intros Hout. apply int64_ok_out in Hout. congruence.
    + intros c Hc. rewrite !filter_filter_andb. f_equal. f_equal.
      apply upsert_vote_filter. intros w. cbn.
      apply andb_false_iff. right. now apply String.eqb_neq, not_eq_sym.
    + intros q Hne. apply upsert_vote_filter. intros w. cbn. apply Z.eqb_neq.
      now apply not_eq_sym.
  - split; [|split; [|split; [|split; [|split; [|split]]]]]; try reflexivity.
    intros Hin. apply int64_ok_spec in Hin. congruence.
Qed.

Lemma vote_song_frame_witness :
  let st' := fst (bl.vote_song Examples.party Examples.A "c1" 9) in
  db.client_vote_sum st' 1 (Some "c1"%string) = Some (Some 9).
Proof.
  apply (vote_song_frame Examples.party Examples.A "c1" 9 1).
  - exact wf_party.
  - reflexivity.
  - unfold int64_min, int64_max. lia.
Defined.

(** X9. [clear_votes] always returns true.  For a song without a queue
    entry it leaves the store as it was; for a queued song it leaves no
    vote on the entry of the song and keeps the votes on every other
    entry, the queue, the catalogue and the ledger. *)
Theorem clear_votes_spec (st : db.DB) (song : Song) :
  let st' := fst (db.clear_votes st song) in
  snd (db.clear_votes st song) = true /\
  (~ queued st (song_id song) -> st' = st) /\
  (forall qid, db._get_app_queue_id st (song_id song) = Some qid ->
     db.votes_of st' qid = [] /\ db.vote_sum st' qid = Some 0 /\
     forall q, q <> qid -> db.votes_of st' q = db.votes_of st q) /\
  db.t_app_queue st' = db.t_app_queue st /\
  db.t_song st' = db.t_song st /\
  db.t_last_added_songs st' = db.t_last_added_songs st.
Proof.
  cbv zeta. unfold db.clear_votes.
  destruct (db._get_app_queue_id st (song_id song)) as [qid|] eqn:E;
    cbn [fst snd db.with_votes db.t_app_queue db.t_song db.t_last_added_songs].
  - split; [reflexivity|]. split.
    { intros Hq. apply get_app_queue_id_not_queued in Hq. congruence. }
    split; [|repeat split].
    intros q Hq. injection Hq as <-.
    unfold db.vote_sum, db.votes_of. cbn [db.t_votes db.with_votes].
    assert (Hv : filter (fun v => db.v_app_queue_id v =? qid)
                        (filter (fun v => negb (db.v_app_queue_id v =? qid)) (db.t_votes st))
                 = []).
    { rewrite filter_filter_andb. apply filter_none. intros x _.
      destruct (db.v_app_queue_id x =? qid); reflexivity. }
    rewrite Hv. split; [reflexivity|]. split; [reflexivity|].
    intros q Hne. apply filter_filter_implied. intros x _ Hx.
    apply Z.eqb_eq in Hx. apply negb_true_iff, Z.eqb_neq. congruence.
  - split; [reflexivity|]. split; [reflexivity|].
    split; [discriminate|repeat split].
Qed.

Lemma clear_votes_spec_witness :
  db.votes_of (fst (db.clear_votes Examples.party Examples.A)) 1 = [] /\
  db.vote_sum (fst (db.clear_votes Examples.party Examples.A)) 1 = Some 0 /\
  forall q, q <> 1 ->
            db.votes_of (fst (db.clear_votes Examples.party Examples.A)) q
            = db.votes_of Examples.party q.
Proof.
  apply (clear_votes_spec Examples.party Examples.A). reflexivity.
Defined.

(** ** Removal from the queue *)

Lemma remove_not_queued (st : db.DB) (song : Song) :
  ~ queued st (song_id song) ->
  db.remove_song_from_app_queue st song = (st, None).
Proof.
  intros Hq. unfold db.remove_song_from_app_queue. cbv zeta.
  assert (Hhit : forall r, In r (db.t_app_queue st) ->
                           String.eqb (db.aq_song_id r) (song_id song) = false).
  { intros r Hr. apply String.eqb_neq. intros E. apply Hq.
    unfold queued. rewrite <- E. now apply in_map. }
  rewrite (filter_none _ _ Hhit).
  rewrite (filter_all (fun r => negb (String.eqb (db.aq_song_id r) (song_id song))))
    by (intros r Hr; now rewrite (Hhit r Hr)).
  rewrite (filter_all (fun v => negb (existsb (fun r => db.aq_id r =? db.v_app_queue_id v) [])))
    by reflexivity.
  destruct st. reflexivity.
Qed.

Lemma remove_leaves_unqueued (st : db.DB) (song : Song) :
  ~ queued (fst (db.remove_song_from_app_queue st song)) (song_id song).
Proof.
  unfold queued, db.remove_song_from_app_queue. cbn [fst db.t_app_queue]. intros H.
  apply in_map_iff in H. destruct H as (e & He & Hin).
  apply filter_In in Hin. destruct Hin as [_ Hin].
  rewrite He, String.eqb_refl in Hin. discriminate.
Qed.

Lemma NoDup_map_inj_in {A K : Type} (key : A -> K) (l : list A) (a b : A) :
  NoDup (map key l) -> In a l -> In b l -> key a = key b -> a = b.
Proof.
  induction l as [|x t IH]; intros Hnd Ha Hb E; [destruct Ha|].
  inversion Hnd as [|? ? Hnin Hnd']; subst.
  destruct Ha as [->|Ha], Hb as [->|Hb]; [reflexivity| | |now apply IH].
  - exfalso. apply Hnin. rewrite E. now apply in_map.
  - exfalso. apply Hnin. rewrite <- E. now apply in_map.
Qed.

(** X10. Removing a song from the queue returns the song when it had an
    entry and nothing when it had none, in which case the store is
    untouched.  Afterwards the song has no entry, a second removal does
    nothing, and on a store that satisfies the schema every other entry is
    still queued with the votes it had. *)
Theorem remove_song_from_app_queue_spec (st : db.DB) (song : Song) :
  wf st ->
  let st' := fst (db.remove_song_from_app_queue st song) in
  (queued st (song_id song) ->
   snd (db.remove_song_from_app_queue st song) = Some song) /\
  (~ queued st (song_id song) ->
   db.remove_song_from_app_queue st song = (st, None)) /\
  ~ queued st' (song_id song) /\
  (forall e, In e (db.t_app_queue st) -> db.aq_song_id e <> song_id song ->
             In e (db.t_app_queue st') /\
             db.votes_of st' (db.aq_id e) = db.votes_of st (db.aq_id e)) /\
  db.remove_song_from_app_queue st' song = (st', None).
Proof.
  intros W. cbv zeta. split; [|split; [|split; [|split]]].
  - intros Hq. unfold db.remove_song_from_app_queue. cbn [snd].
    unfold queued in Hq. apply in_map_iff in Hq. destruct Hq as (e & He & Hin).
    destruct (filter _ (db.t_app_queue st)) as [|x r] eqn:F.
    + exfalso.
      assert (Hx : In e (filter (fun r => String.eqb (db.aq_song_id r) (song_id song))
                                (db.t_app_queue st))).
      { apply filter_In. split; [assumption|]. now apply String.eqb_eq. }
      rewrite F in Hx. destruct Hx.
    + reflexivity.
  - apply remove_not_queued.
  - apply remove_leaves_unqueued.
  - intros e He Hne. unfold db.remove_song_from_app_queue.
    cbn [fst db.t_app_queue]. split.
    + apply filter_In. split; [assumption|]. now apply negb_true_iff, String.eqb_neq.
    + unfold db.votes_of. cbn [db.t_votes].
      apply filter_filter_implied. intros v _ Hv. apply Z.eqb_eq in Hv.
      apply negb_true_iff.
      destruct (existsb _ _) eqn:Ex; [|reflexivity]. exfalso.
      apply existsb_exists in Ex. destruct Ex as (d & Hd & Ed).
      apply filter_In in Hd. destruct Hd as [Hd Hhit].
      apply Z.eqb_eq in Ed. apply String.eqb_eq in Hhit.
      assert (d = e).
      { apply (NoDup_map_inj_in db.aq_id (db.t_app_queue st));
          [apply (wf_aq_pk st W)|assumption|assumption|congruence]. }
      subst d. contradiction.
  - apply remove_not_queued, remove_leaves_unqueued.
Qed.

Lemma remove_song_from_app_queue_spec_witness :
  let st' := fst (db.remove_song_from_app_queue Examples.party Examples.A) in
  (queued Examples.party "A" ->
   snd (db.remove_song_from_app_queue Examples.party Examples.A) = Some Examples.A) /\
  (~ queued Examples.party "A" ->
   db.remove_song_from_app_queue Examples.party Examples.A = (Examples.party, None)) /\
  ~ queued st' "A" /\
  (forall e, In e (db.t_app_queue Examples.party) -> db.aq_song_id e <> "A"%string ->
             In e (db.t_app_queue st') /\
             db.votes_of st' (db.aq_id e) = db.votes_of Examples.party (db.aq_id e)) /\
  db.remove_song_from_app_queue st' Examples.A = (st', None).
Proof.
  apply (remove_song_from_app_queue_spec Examples.party Examples.A).
  exact wf_party.
Defined.

(** ** The ledger *)

(** X11. On a store that satisfies the schema, recording an injection of a
    song the catalogue holds succeeds and puts its identifier in front of
    the recent ones: the last [n] are the new one followed by the last
    [n - 1] of before.  For a song the catalogue does not hold the call
    returns false and leaves the store as it was.  The list of the last
    [n] never has more than [n] elements and only names ledger records. *)
Theorem last_added_most_recent_first (st : db.DB) (id : string) (n : Z) :
  wf st ->
  (In id (map db.row_id (db.t_song st)) -> 0 < n ->
   snd (db.add_last_added_song_id st id) = true /\
   db.get_last_added_song_ids (fst (db.add_last_added_song_id st id)) n
   = id :: db.get_last_added_song_ids st (n - 1)) /\
  (~ In id (map db.row_id (db.t_song st)) ->
   db.add_last_added_song_id st id = (st, false)) /\
  (List.length (db.get_last_added_song_ids st n) <= Z.to_nat n)%nat /\
  (forall x, In x (db.get_last_added_song_ids st n) ->
             In x (map db.la_song_id (db.t_last_added_songs st))).
Proof.
  intros W. split; [|split; [|split]].
  - intros Hrow Hn. unfold db.add_last_added_song_id.
    rewrite (proj2 (existsb_key db.row_id _ _) Hrow). cbn [fst snd].
    split; [reflexivity|].
    unfold db.get_last_added_song_ids. cbn [db.t_last_added_songs].
    assert (E1 : (n <=? 0) = false) by lia. rewrite E1.
    rewrite order_by_app_first.
    + replace (Z.to_nat n) with (S (Z.to_nat (n - 1))) by lia.
      cbn [firstn map db.la_song_id]. f_equal.
      destruct (n - 1 <=? 0) eqn:E2; [|reflexivity].
      replace (Z.to_nat (n - 1)) with 0%nat by lia. reflexivity.
    + intros y Hy. pose proof (wf_la_seq st W) as Hseq.
      rewrite Forall_forall in Hseq. specialize (Hseq y Hy). cbn [db.la_id]. lia.
  - intros Hrow. unfold db.add_last_added_song_id.
    now rewrite (proj2 (existsb_key_false db.row_id _ _) Hrow).
  - unfold db.get_last_added_song_ids. destruct (n <=? 0); [cbn; lia|].
    rewrite length_map. apply firstn_le_length.
  - intros x. unfold db.get_last_added_song_ids. destruct (n <=? 0); [intros []|].
    intros Hx. apply in_map_iff in Hx. destruct Hx as (r & <- & Hr).
    apply in_map. apply (proj1 (order_by_In (fun a b => db.la_id b <=? db.la_id a) r _)).
    rewrite <- (firstn_skipn (Z.to_nat n)). apply in_or_app. now left.
Qed.

Lemma last_added_most_recent_first_witness :
  snd (db.add_last_added_song_id Examples.after_two "C") = true /\
  db.get_last_added_song_ids (fst (db.add_last_added_song_id Examples.after_two "C")) 2
  = "C"%string :: db.get_last_added_song_ids Examples.after_two (2 - 1).
Proof.
  apply (last_added_most_recent_first Examples.after_two "C" 2).
  - exact wf_after_two.
  - simpl. auto.
  - lia.
Defined.

(** * More of the business logic *)

(** ** What a tick does to the store *)




(** ** Sorting and deleting commute *)

Section OrderByFilter.
Context {A : Type} (leb : A -> A -> bool) (keep : A -> bool).
Hypothesis leb_total : forall a b, leb a b = false -> leb b a = true.
Hypothesis leb_trans : forall a b c, leb a b = true -> leb b c = true -> leb a c = true.




End OrderByFilter.



(** ** The queue after an injection *)






(** ** Ticks and admissions together *)

Lemma admission_true_queued (ex : sp.Exchange) (now : datetime) (st : db.DB)
      (id : string) (s : Song) :
  sp.search_song ex id = Some s ->
  snd (bl.add_song_to_app_queue ex now st id) = Return true ->
  queued (fst (bl.add_song_to_app_queue ex now st id)) (song_id s).
Proof.
  intros Hs. rewrite (admission_resolved ex now st id s Hs). cbv zeta.
  destruct (db.check_song_in_app_queue _ s); [discriminate|].
  destruct (match snd (db.add_song st s) with Some _ => _ | None => _ end);
    [discriminate|].
  cbn [fst snd]. unfold db.add_song_to_app_queue.
  destruct (_ || _); cbn [fst snd]; [discriminate|]. intros _.
  unfold queued. cbn [db.t_app_queue]. rewrite map_app, in_app_iff. right. now left.
Qed.



(** X15. On a store that satisfies the schema, whose ledger holds at most
    one record, whose queue is not empty and on which no sum of an entry's
    votes overflows 64 bits, a tick calls the adapter with the song
    selection returns, whatever the device reports. *)
Theorem tick_attempts_with_short_ledger (env : bl.Env) (st : db.DB) :
  wf st ->
  (List.length (db.t_last_added_songs st) <= 1)%nat ->
  db.t_app_queue st <> [] ->
  sums_fit st ->
  exists s, bl._pick_next_song st = Return (Some s) /\
            bl.out_push (bl.check_sp_queue env st) = Some s.
Proof.
  intros W Hlen Hq Hfit.
  assert (Hopen : bl.next_slot_open (db.get_last_added_song_ids st 2) (bl.sp_queue env)
                  = true).
  { unfold bl.next_slot_open. apply orb_true_iff. left. apply Z.leb_le.
    unfold db.get_last_added_song_ids. cbn [Z.leb Z.compare].
    rewrite length_map, length_firstn.
    pose proof (Permutation_length
                  (order_by_perm (fun a b => db.la_id b <=? db.la_id a)
                                 (db.t_last_added_songs st))) as H2.
    lia. }
  unfold bl.check_sp_queue. rewrite Hopen.
  rewrite (pick_next_song_eq st W Hfit).
  destruct (order_by (entry_leb st) (db.t_app_queue st)) as [|e rest] eqn:E.
  - apply order_by_nil in E. contradiction.
  - eexists. split; [reflexivity|].
    destruct (sp.add_song_to_queue _ _); reflexivity.
Qed.

Lemma tick_attempts_with_short_ledger_witness :
  exists s, bl._pick_next_song Examples.party = Return (Some s) /\
            bl.out_push (bl.check_sp_queue
                           (bl.mkEnv [Examples.A; Examples.B]
                                     (fun _ => Examples.no_active_device) 0)
                           Examples.party) = Some s.
Proof.
  apply (tick_attempts_with_short_ledger
           (bl.mkEnv [Examples.A; Examples.B] (fun _ => Examples.no_active_device) 0)
           Examples.party).
  - exact wf_party.
  - simpl. lia.
  - simpl. discriminate.
  - exact sums_fit_party.
Defined.

Lemma not_in_catalogue_not_queued (st : db.DB) (id : string) :
  wf st -> ~ In id (map db.row_id (db.t_song st)) -> ~ queued st id.
Proof.
  intros W Hrow Hq. apply Hrow. unfold queued in Hq.
  apply in_map_iff in Hq. destruct Hq as (e & <- & He).
  pose proof (wf_aq_fk st W) as Hfk. rewrite Forall_forall in Hfk. now apply Hfk.
Qed.

(** X16. On a store that satisfies the schema, admitting a song the
    catalogue does not hold yet returns true: the song is stored as the
    adapter gave it, without [last_played], and is queued with the vote
    sum 0. *)
Theorem admission_of_new_song (ex : sp.Exchange) (now : datetime) (st : db.DB)
        (id : string) (s : Song) :
  wf st ->
  sp.search_song ex id = Some s ->
  ~ In (song_id s) (map db.row_id (db.t_song st)) ->
  let st' := fst (bl.add_song_to_app_queue ex now st id) in
  snd (bl.add_song_to_app_queue ex now st id) = Return true /\
  db.get_song st' (song_id s) = Some s /\
  last_played_of st' (song_id s) = None /\
  exists qid, db._get_app_queue_id st' (song_id s) = Some qid /\
              db.vote_sum st' qid = Some 0.
Proof.
  intros W Hs Hnew. cbv zeta.
  pose proof (not_in_catalogue_not_queued st _ W Hnew) as Hnq.
  pose proof (wf_add_song st s W (search_song_id ex id s Hs)) as W1.
  rewrite (admission_resolved ex now st id s Hs). cbv zeta.
  assert (Hnone : db.song_row st (song_id s) = None)
    by (apply find_key_none; exact Hnew).
  unfold db.add_song in *. rewrite Hnone in *. cbn [fst snd] in *.
  set (st1 := db.with_song st _) in *.
  assert (Hc : db.check_song_in_app_queue st1 s = false)
    by (apply existsb_key_false; exact Hnq).
  rewrite Hc. unfold db.add_song_to_app_queue.
  rewrite (proj2 (existsb_key_false db.aq_song_id (db.t_app_queue st1) (song_id s)) Hnq).
  assert (Hrow1 : existsb (fun r => String.eqb (db.row_id r) (song_id s)) (db.t_song st1)
                  = true).
  { apply existsb_key. unfold st1. cbn [db.with_song db.t_song].
    rewrite map_app, in_app_iff. right. now left. }
  rewrite Hrow1. cbn [orb negb fst snd].
  split; [reflexivity|].
  unfold db.get_song, last_played_of, db.song_row, db._get_app_queue_id, db.queue_row.
  cbn [db.t_song db.t_app_queue db.with_song st1].
  unfold db.song_row in Hnone. rewrite find_snoc, Hnone.
  cbn [db.row_id db.row_name db.row_artist db.row_last_played]. rewrite String.eqb_refl.
  split; [destruct s; reflexivity|]. split; [reflexivity|].
  exists (db.seq_app_queue st + 1). split.
  - rewrite find_snoc.
    rewrite (proj2 (find_key_none db.aq_song_id _ _) Hnq).
    cbn [db.aq_song_id]. now rewrite String.eqb_refl.
  - unfold db.vote_sum.
    change (db.votes_of _ (db.seq_app_queue st + 1))
      with (db.votes_of st (db.seq_app_queue st + 1)).
    rewrite vote_sum_beyond_seq; [reflexivity|assumption|lia].
Qed.

Lemma admission_of_new_song_witness :
  let st' := fst (bl.add_song_to_app_queue (Examples.resolves Examples.X) 0
                                           Examples.party "X") in
  snd (bl.add_song_to_app_queue (Examples.resolves Examples.X) 0 Examples.party "X")
  = Return true /\
  db.get_song st' "X" = Some Examples.X /\
  last_played_of st' "X" = None /\
  exists qid, db._get_app_queue_id st' "X" = Some qid /\ db.vote_sum st' qid = Some 0.
Proof.
  apply (admission_of_new_song (Examples.resolves Examples.X) 0 Examples.party "X"
                               Examples.X).
  - exact wf_party.
  - reflexivity.
  - simpl. intros [H|[H|[]]]; discriminate.
Defined.

Lemma admission_unchanged_unless_true (ex : sp.Exchange) (now : datetime)
      (st : db.DB) (id : string) :
  wf st ->
  snd (bl.add_song_to_app_queue ex now st id) <> Return true ->
  fst (bl.add_song_to_app_queue ex now st id) = st.
Proof.
  intros W. destruct (sp.search_song ex id) as [s|] eqn:Hs.
  - rewrite (admission_resolved ex now st id s Hs). cbv zeta.
    destruct (in_dec string_dec (song_id s) (map db.row_id (db.t_song st))) as [Hrow|Hnew].
    + rewrite (add_song_present st s Hrow).
      destruct (db.check_song_in_app_queue st s); [reflexivity|].
      destruct (match snd (db.add_song st s) with Some _ => _ | None => _ end);
        [reflexivity|].
      cbn [fst snd]. unfold db.add_song_to_app_queue.
      destruct (_ || _); cbn [fst snd]; [reflexivity|]. intros H. now contradiction H.
    + intros H. exfalso. apply H.
      pose proof (not_in_catalogue_not_queued st _ W Hnew) as Hnq.
      assert (Hnone : db.song_row st (song_id s) = None)
        by (apply find_key_none; exact Hnew).
      unfold db.add_song. rewrite Hnone. cbn [fst snd].
      assert (Hc : db.check_song_in_app_queue
                     (db.with_song st (db.t_song st ++
                        [db.mkSongRow (song_id s) (name s) (artist s) None])) s = false)
        by (apply existsb_key_false; exact Hnq).
      rewrite Hc. cbn [snd]. f_equal. apply add_song_to_app_queue_fresh.
      * cbn [db.with_song db.t_song]. rewrite map_app, in_app_iff. right. now left.
      * exact Hnq.
  - unfold bl.add_song_to_app_queue. now rewrite Hs.
Qed.


(** X17. On a store that satisfies the schema, an admission that does not
    return true, because it returns false or raises, leaves the store as
    it was. *)
Theorem refused_admission_no_effect (ex : sp.Exchange) (now : datetime)
        (st : db.DB) (id : string) :
  wf st ->
  snd (bl.add_song_to_app_queue ex now st id) <> Return true ->
  fst (bl.add_song_to_app_queue ex now st id) = st.
Proof.
  intros W Hr.
  destruct (bl.add_song_to_app_queue ex now st id) as [st' r] eqn:E.
  pose proof (admission_unchanged_unless_true ex now st id W) as H.
  rewrite E in H. now apply H.
Qed.

Lemma refused_admission_no_effect_witness :
  fst (bl.add_song_to_app_queue (Examples.resolves Examples.B) 0 Examples.party "B")
  = Examples.party.
Proof.
  apply (refused_admission_no_effect (Examples.resolves Examples.B) 0 Examples.party "B").
  - exact wf_party.
  - vm_compute. discriminate.
Defined.

(** * The adapter *)

Lemma truthy_spec (s : string) : sp.truthy s = true <-> s <> EmptyString.
Proof.
  unfold sp.truthy. destruct (String.eqb_spec s ""); cbn; intuition congruence.
Qed.

Lemma item_to_song_fields (item : sp.Payload) (s : Song) :
  sp._item_to_song item = Some s ->
  (song_id s <> EmptyString /\ name s <> EmptyString /\ artist s <> EmptyString) /\
  exists it, item = sp.Dict it /\ sp.item_type it = "track"%string /\
             song_id s = sp.item_id it /\ name s = sp.item_name it.
Proof.
  unfold sp._item_to_song. destruct item as [|it]; [discriminate|].
  destruct (String.eqb_spec (sp.item_type it) "track") as [Et|Et]; [|discriminate].
  cbn [negb].
  destruct (sp.truthy (sp.item_id it)) eqn:E1; [|discriminate].
  destruct (sp.truthy (sp.item_name it)) eqn:E2; [|discriminate].
  destruct (sp.truthy (String.concat _ _)) eqn:E3; [|discriminate].
  cbn [negb orb]. intros H. injection H as <-. cbn [song_id name artist].
  apply truthy_spec in E1, E2, E3.
  split; [now repeat split|]. exists it. now repeat split.
Qed.

(** X18. A song [search_song] returns was asked for with an identifier
    that is not empty, and has an identifier, a name and an artist that
    are not empty; identifier and name are those of the track object the
    request returned. *)
Theorem search_song_result (ex : sp.Exchange) (id : string) (s : Song) :
  sp.search_song ex id = Some s ->
  id <> EmptyString /\
  song_id s <> EmptyString /\ name s <> EmptyString /\ artist s <> EmptyString /\
  exists it, sp._authorized_request ex = Some (sp.Dict it) /\
             song_id s = sp.item_id it /\ name s = sp.item_name it.
Proof.
  unfold sp.search_song.
  destruct (sp.truthy id) eqn:Eid; [|discriminate]. cbn [negb].
  destruct (sp._authorized_request ex) as [[|it]|]; try discriminate.
  intros H. apply item_to_song_fields in H.
  destruct H as ((H1 & H2 & H3) & it' & E & _ & H4 & H5).
  injection E as <-. cbn in H4, H5.
  split; [now apply truthy_spec|]. repeat split; try assumption.
  exists it. now repeat split.
Qed.

Lemma search_song_result_witness :
  "A"%string <> EmptyString /\
  song_id Examples.A <> EmptyString /\ name Examples.A <> EmptyString /\
  artist Examples.A <> EmptyString /\
  exists it, sp._authorized_request (Examples.resolves Examples.A) = Some (sp.Dict it) /\
             song_id Examples.A = sp.item_id it /\ name Examples.A = sp.item_name it.
Proof.
  apply (search_song_result (Examples.resolves Examples.A) "A" Examples.A).
  reflexivity.
Defined.

Lemma flat_map_songs_length (q : list sp.Payload) :
  (List.length (flat_map (fun q_item => match sp._item_to_song q_item with
                                        | Some s => [s]
                                        | None => []
                                        end) q)
   <= List.length q)%nat.
Proof.
  induction q as [|x t IH]; [cbn; lia|].
  cbn [flat_map]. rewrite length_app. destruct (sp._item_to_song x); cbn; lia.
Qed.

Lemma flat_map_songs_tracks (q : list sp.Payload) :
  flat_map (fun q_item => match sp._item_to_song q_item with
                          | Some s => [s]
                          | None => []
                          end) (filter is_track_item q)
  = flat_map (fun q_item => match sp._item_to_song q_item with
                            | Some s => [s]
                            | None => []
                            end) q.
Proof.
  induction q as [|x t IH]; [reflexivity|].
  cbn [filter flat_map]. destruct (is_track_item x) eqn:E.
  - cbn [flat_map]. now rewrite IH.
  - rewrite IH.
    assert (Hx : sp._item_to_song x = None).
    { destruct x as [|it]; [reflexivity|]. cbn in E. unfold sp._item_to_song.
      now rewrite E. }
    now rewrite Hx.
Qed.

(** X19. The list [get_queue] returns holds only songs whose identifier,
    name and artist are not empty.  It is empty when the request failed
    or returned the empty object; otherwise it has at most one song for
    the current item and one per queued item, and the items of the queue
    that are not tracks, episodes for one, do not count: without them the
    list is the same. *)
Theorem get_queue_songs (payload : option sp.QueuePayload) :
  (forall s, In s (sp.get_queue payload) ->
             song_id s <> EmptyString /\ name s <> EmptyString /\
             artist s <> EmptyString) /\
  (forall curr q, payload = Some (sp.QueueDict curr q) ->
     (List.length (sp.get_queue payload) <= 1 + List.length q)%nat /\
     sp.get_queue payload
     = sp.get_queue (Some (sp.QueueDict curr (filter is_track_item q)))) /\
  (payload = None \/ payload = Some sp.QueueEmpty -> sp.get_queue payload = []).
Proof.
  split; [|split].
  - intros s. destruct payload as [[|curr q]|]; cbn [sp.get_queue]; try (intros []).
    rewrite in_app_iff, in_flat_map. intros [H|(x & _ & H)].
    + destruct (sp._item_to_song curr) as [c|] eqn:E; [|destruct H].
      destruct H as [<-|[]]. now apply item_to_song_fields in E.
    + destruct (sp._item_to_song x) as [c|] eqn:E; [|destruct H].
      destruct H as [<-|[]]. now apply item_to_song_fields in E.
  - intros curr q ->. cbn [sp.get_queue]. split.
    + rewrite length_app. pose proof (flat_map_songs_length q).
      destruct (sp._item_to_song curr); cbn [List.length]; lia.
    + now rewrite flat_map_songs_tracks.
  - intros [->| ->]; reflexivity.
Qed.

Lemma get_queue_songs_witness :
  sp.get_queue (Some sp.QueueEmpty) = [].
Proof.
  apply (get_queue_songs (Some sp.QueueEmpty)). now right.
Defined.

(** * The endpoints *)

(** ** The track identifier of a link *)

Lemma take_alnum_run (id rest : string) :
  all_alnum id = true -> ends_run rest = true ->
  api.take_alnum (id ++ rest) = id.
Proof.
  intros Hid Hrest. induction id as [|c id' IH]; cbn.
  - destruct rest as [|c r]; [reflexivity|]. cbn in *.
    apply negb_true_iff in Hrest. now rewrite Hrest.
  - cbn in Hid. apply andb_true_iff in Hid. destruct Hid as [Hc Hid].
    rewrite Hc. now rewrite IH.
Qed.

Lemma take_alnum_all (s : string) : all_alnum (api.take_alnum s) = true.
Proof.
  induction s as [|c s' IH]; [reflexivity|].
  cbn. destruct (api.alnum c) eqn:E; [|reflexivity]. cbn. now rewrite E.
Qed.

(** X20. The identifier is read back from the two forms of link: for an
    identifier made of letters and digits, not empty, followed by nothing
    or by a character that is neither, [extract_track_id] returns it from
    the URI [spotify:track:<id>] and from the URL
    [https://open.spotify.com/track/<id>]. *)
Theorem extract_track_id_round_trip (id rest : string) :
  all_alnum id = true -> id <> EmptyString -> ends_run rest = true ->
  api.extract_track_id ("spotify:track:" ++ id ++ rest) = Some id /\
  api.extract_track_id ("https://open.spotify.com/track/" ++ id ++ rest) = Some id.
Proof.
  intros Hid Hne Hrest. unfold api.extract_track_id. split.
  - cbn -[api.take_alnum api.match_here].
    unfold api.match_here, api.match_alternative. cbn -[api.take_alnum].
    rewrite take_alnum_run by assumption.
    destruct (String.eqb_spec id ""); [contradiction|reflexivity].
  - cbn -[api.take_alnum]. rewrite take_alnum_run by assumption.
    destruct (String.eqb_spec id ""); [contradiction|reflexivity].
Qed.

Lemma extract_track_id_round_trip_witness :
  api.extract_track_id ("spotify:track:" ++ "3n3Ppam7vgaVa1iaRUc9Lp" ++ "")
  = Some "3n3Ppam7vgaVa1iaRUc9Lp"%string /\
  api.extract_track_id ("https://open.spotify.com/track/" ++ "3n3Ppam7vgaVa1iaRUc9Lp" ++ "")
  = Some "3n3Ppam7vgaVa1iaRUc9Lp"%string.
Proof.
  apply (extract_track_id_round_trip "3n3Ppam7vgaVa1iaRUc9Lp" "").
  - reflexivity.
  - discriminate.
  - reflexivity.
Defined.

Example extract_track_id_url_with_query :
  api.extract_track_id "https://open.spotify.com/track/3n3Ppam7vgaVa1iaRUc9Lp?si=abc"
  = Some "3n3Ppam7vgaVa1iaRUc9Lp"%string.
Proof. reflexivity. Qed.

Example extract_track_id_ignores_case :
  api.extract_track_id "SPOTIFY:Track:3n3Ppam7vgaVa1iaRUc9Lp"
  = Some "3n3Ppam7vgaVa1iaRUc9Lp"%string.
Proof. reflexivity. Qed.

Lemma match_alternative_some (lit s id : string) :
  api.match_alternative lit s = Some id ->
  id <> EmptyString /\ all_alnum id = true.
Proof.
  unfold api.match_alternative. destruct (api.match_literal lit s) as [rest|];
    [|discriminate].
  destruct (String.eqb_spec (api.take_alnum rest) ""); [discriminate|].
  intros H. injection H as <-. split; [assumption|apply take_alnum_all].
Qed.

Lemma search_some (s id : string) :
  api.search s = Some id -> id <> EmptyString /\ all_alnum id = true.
Proof.
  induction s as [|c s' IH]; cbn [api.search]; unfold api.match_here.
  - destruct (api.match_alternative "spotify:track:" "") eqn:E1;
      [intros H; injection H as <-; now apply match_alternative_some in E1|].
    destruct (api.match_alternative "open.spotify.com/track/" "") eqn:E2;
      [intros H; injection H as <-; now apply match_alternative_some in E2|].
    discriminate.
  - destruct (api.match_alternative "spotify:track:" (String c s')) eqn:E1;
      [intros H; injection H as <-; now apply match_alternative_some in E1|].
    destruct (api.match_alternative "open.spotify.com/track/" (String c s')) eqn:E2;
      [intros H; injection H as <-; now apply match_alternative_some in E2|].
    exact IH.
Qed.

(** X21. What [extract_track_id] returns is never empty and consists of
    letters and digits only; from the empty string it returns nothing. *)
Theorem extract_track_id_result (link id : string) :
  api.extract_track_id EmptyString = None /\
  (api.extract_track_id link = Some id ->
   id <> EmptyString /\ all_alnum id = true).
Proof.
  split; [reflexivity|]. unfold api.extract_track_id.
  destruct (negb (sp.truthy link)); [discriminate|]. apply search_some.
Qed.

Lemma extract_track_id_result_witness :
  "ab"%string <> EmptyString /\ all_alnum "ab" = true.
Proof.
  apply (extract_track_id_result "xx spotify:track:ab-cd" "ab"). reflexivity.
Defined.

(** ** POST /queue *)

(** X22. On a store that satisfies the schema, POST /queue answers true,
    false or the status 400, never another status and never an exception
    of another kind: 400 for a link without a track identifier and for an
    identifier the adapter does not resolve.  Whatever it answers other
    than true, the store is as it was; when it answers true, the song the
    identifier resolved to is queued. *)
Theorem post_queue_outcomes (ex : sp.Exchange) (now : datetime) (st : db.DB)
        (song_link : string) :
  wf st ->
  let r := api.add_song_to_app_queue ex now st song_link in
  (api.extract_track_id song_link = None ->
   r = (st, api.HTTPException 400 "Invalid Spotify track link/URI.")) /\
  (forall track_id, api.extract_track_id song_link = Some track_id ->
                    sp.search_song ex track_id = None ->
                    r = (st, api.HTTPException 400 "Track not found on Spotify.")) /\
  (forall status_code detail, snd r = api.HTTPException status_code detail ->
                              status_code = 400) /\
  (forall e, snd r <> api.Uncaught e) /\
  (snd r <> api.Ok true -> fst r = st) /\
  (snd r = api.Ok true ->
   exists track_id s, api.extract_track_id song_link = Some track_id /\
                      sp.search_song ex track_id = Some s /\
                      queued (fst r) (song_id s)).
Proof.
  intros W. cbv zeta. unfold api.add_song_to_app_queue.
  destruct (api.extract_track_id song_link) as [tid|] eqn:Et.
  2:{ split; [reflexivity|]. split; [discriminate|].
      split; [intros ? ? H; now injection H as <- _|].
      split; [discriminate|].
      split; [reflexivity|discriminate]. }
  assert (Ht : sp.truthy tid = true).
  { apply truthy_spec.
    unfold api.extract_track_id in Et.
    destruct (negb (sp.truthy song_link)); [discriminate|].
    now apply search_some in Et. }
  rewrite Ht. cbn [negb].
  pose proof (admission_unchanged_unless_true ex now st tid W) as Hun.
  destruct (sp.search_song ex tid) as [s|] eqn:Hs.
  - pose proof (admission_true_queued ex now st tid s Hs) as Hq.
    pose proof (admission_resolved ex now st tid s Hs) as Hres.
    destruct (bl.add_song_to_app_queue ex now st tid) as [st' [ok|e]] eqn:E;
      cbn [fst snd] in *.
    + split; [discriminate|].
      split; [intros t Ht' Hn; injection Ht' as <-; congruence|].
      split; [discriminate|].
      split; [discriminate|].
      split.
      * intros Hne. apply Hun. congruence.
      * intros H. injection H as ->. exists tid, s.
        split; [reflexivity|]. split; [exact Hs|]. now apply Hq.
    + exfalso. revert Hres. cbv zeta.
      destruct (db.check_song_in_app_queue _ s); [discriminate|].
      destruct (match snd (db.add_song st s) with Some _ => _ | None => _ end);
        discriminate.
  - unfold bl.add_song_to_app_queue. rewrite Hs. cbn [fst snd].
    split; [discriminate|]. split; [reflexivity|].
    split; [intros ? ? H; now injection H as <- _|].
    split; [discriminate|].
    split; [reflexivity|discriminate].
Qed.

Lemma post_queue_outcomes_witness :
  let r := api.add_song_to_app_queue (Examples.resolves Examples.X) 0 Examples.party
                                     "https://open.spotify.com/track/X" in
  exists track_id s,
    api.extract_track_id "https://open.spotify.com/track/X" = Some track_id /\
    sp.search_song (Examples.resolves Examples.X) track_id = Some s /\
    queued (fst r) (song_id s).
Proof.
  intros r.
  apply (post_queue_outcomes (Examples.resolves Examples.X) 0 Examples.party
                             "https://open.spotify.com/track/X").
  - exact wf_party.
  - reflexivity.
Defined.

(** ** POST /vote *)





Example post_vote_overflow :
  api.vote_song Examples.not_found Examples.party "B" 9223372036854775808
                (Some "c9"%string)
  = (Examples.party, api.Uncaught "Python int too large to convert to SQLite INTEGER").
Proof. reflexivity. Qed.

(** * The ranking queries and the ledger over several ticks *)

(** Either every sum fits, or the sum of some entry overflows. *)
Lemma sums_fit_dec (st : db.DB) :
  sums_fit st \/
  exists e, In e (db.t_app_queue st) /\ db.vote_sum st (db.aq_id e) = None.
Proof.
  unfold sums_fit. induction (db.t_app_queue st) as [|a t IH].
  - left. intros e [].
  - destruct (db.vote_sum st (db.aq_id a)) as [total|] eqn:Ea.
    + destruct IH as [IH|(e & He & Hov)].
      * left. intros e [<-|He]; [congruence|now apply IH].
      * right. exists e. split; [now right|assumption].
    + right. exists a. split; [now left|assumption].
Qed.

(** X24. On a store that satisfies the schema, [get_most_voted_song]
    returns nothing exactly when there is no vote at all, returns only
    identifiers of queued songs, and raises, with "integer overflow",
    exactly when the sum of the votes of some entry overflows 64 bits;
    [get_oldest_song] returns nothing exactly when the queue is empty, and
    otherwise a queued song. *)
Theorem ranking_queries_none (st : db.DB) :
  wf st ->
  (db.get_most_voted_song st = Return None <-> db.t_votes st = []) /\
  (forall id, db.get_most_voted_song st = Return (Some id) -> queued st id) /\
  (forall msg, db.get_most_voted_song st = Raise msg <->
               msg = "integer overflow"%string /\
               exists e, In e (db.t_app_queue st) /\
                         db.vote_sum st (db.aq_id e) = None) /\
  (db.get_oldest_song st = None <-> db.t_app_queue st = []) /\
  (forall s, db.get_oldest_song st = Some s -> queued st (song_id s)).
Proof.
  intros W. rewrite (get_oldest_song_eq st W).
  split; [|split; [|split; [|split]]].
  - split.
    + intros H. pose proof (get_most_voted_song_returns st _ H) as Hfit.
      rewrite (get_most_voted_song_eq st Hfit) in H.
      destruct (db.t_votes st) as [|v vs] eqn:Ev; [reflexivity|].
      destruct (order_by (entry_leb st) (db.t_app_queue st)) as [|e rest] eqn:E;
        [|discriminate].
      exfalso. apply order_by_nil in E.
      pose proof (wf_votes_fk st W) as Hfk. rewrite Ev, E in Hfk.
      inversion Hfk as [|? ? Hin _]. destruct Hin.
    + intros Hv. rewrite (get_most_voted_song_eq st (no_votes_sums_fit st Hv)).
      now rewrite Hv.
  - intros id H. pose proof (get_most_voted_song_returns st _ H) as Hfit.
    rewrite (get_most_voted_song_eq st Hfit) in H.
    destruct (db.t_votes st); [discriminate|].
    destruct (order_by (entry_leb st) (db.t_app_queue st)) as [|e rest] eqn:E;
      [discriminate|].
    injection H as <-. unfold queued. apply in_map.
    apply (proj1 (order_by_In (entry_leb st) e _)). rewrite E. now left.
  - intros msg. split.
    + intros H. destruct (sums_fit_dec st) as [Hfit|(e & He & Hov)].
      * rewrite (get_most_voted_song_eq st Hfit) in H. discriminate.
      * rewrite (get_most_voted_song_raise st e He Hov) in H.
        injection H as <-. split; [reflexivity|]. now exists e.
    + intros [-> (e & He & Hov)]. now apply (get_most_voted_song_raise st e).
  - destruct (order_by _ (db.t_app_queue st)) as [|e rest] eqn:E.
    + apply order_by_nil in E. now split.
    + split; [discriminate|]. intros H. rewrite H in E. discriminate.
  - intros s.
    destruct (order_by (fun a b => db.aq_id a <=? db.aq_id b) (db.t_app_queue st))
      as [|e rest] eqn:E; [discriminate|].
    intros H. injection H as <-.
    assert (He : In e (db.t_app_queue st)).
    { apply (proj1 (order_by_In (fun a b => db.aq_id a <=? db.aq_id b) e _)).
      rewrite E. now left. }
    destruct (get_song_entry st e W He) as (_ & Hid & _). rewrite Hid.
    unfold queued. now apply in_map.
Qed.

Lemma ranking_queries_none_witness :
  (db.get_most_voted_song Examples.after_two = Return None
   <-> db.t_votes Examples.after_two = []) /\
  (forall id, db.get_most_voted_song Examples.after_two = Return (Some id) ->
              queued Examples.after_two id) /\
  (forall msg, db.get_most_voted_song Examples.after_two = Raise msg <->
               msg = "integer overflow"%string /\
               exists e, In e (db.t_app_queue Examples.after_two) /\
                         db.vote_sum Examples.after_two (db.aq_id e) = None) /\
  (db.get_oldest_song Examples.after_two = None
   <-> db.t_app_queue Examples.after_two = []) /\
  (forall s, db.get_oldest_song Examples.after_two = Some s ->
             queued Examples.after_two (song_id s)).
Proof.
  apply (ranking_queries_none Examples.after_two). exact wf_after_two.
Defined.

Example get_most_voted_song_overflowing :
  db.get_most_voted_song Examples.overflowing = Raise "integer overflow".
Proof. reflexivity. Qed.




